(** * RendezvousClient: a shallow embedding of the Psi rendezvous client

    Source: Sources/Runtime/Microsoft.Psi.Interop/Rendezvous/RendezvousClient.py

    The Python class talks to a rendezvous server over a stream socket.
    Every method is embedded as a computation in a state-and-exception
    monad over the state the method can touch: the class attribute
    [rendezvous], the instance attributes, and the bytes that travel on
    the socket in each direction. *)

From Stdlib Require Import ZArith List Lia String.
From Stdlib Require Import Strings.Byte.
From stdpp Require Import base option countable gmap list.

Local Open Scope Z_scope.

(** ** Bytes *)

Definition Z_of_byte (b : byte) : Z := Z.of_N (Byte.to_N b).

Definition byte_of_Z (z : Z) : byte :=
  default x00 (Byte.of_N (Z.to_N (z mod 256))).

#[global] Instance byte_eq_decision : EqDecision byte := Byte.byte_eq_dec.

#[global] Program Instance byte_countable : Countable byte :=
  inj_countable Byte.to_N Byte.of_N _.
Next Obligation. intros b. apply Byte.of_to_N. Qed.

(** ** Python values held in the string fields of the dictionaries

    A field such as [process['name']] holds either a [str] (a sequence of
    Unicode code points) or a [bytes] object; the two never compare equal
    in Python 3. *)

Inductive pyval : Type :=
| PyStr (s : list N)
| PyBytes (b : list byte).

#[global] Instance pyval_eq_decision : EqDecision pyval.
Proof. solve_decision. Defined.

#[global] Program Instance pyval_countable : Countable pyval :=
  inj_countable
    (fun v => match v with PyStr s => inl s | PyBytes b => inr b end)
    (fun x => Some match x with inl s => PyStr s | inr b => PyBytes b end) _.
Next Obligation. intros [s|b]; reflexivity. Qed.

(** ** Exceptions *)

Inductive exn : Type :=
| StructError                 (* struct.error *)
| ValueError
| KeyError
| TypeError
| AttributeError
| UnicodeEncodeError
| ConnectionRefusedError
| PyException (msg : string).  (* raise Exception(msg) *)

Definition res (A : Type) : Type := (exn + A)%type.

(** ** Text encoding: [str.encode()] is UTF-8 *)

Definition utf8_char (c : Z) : res (list byte) :=
  if c <? 0 then inl UnicodeEncodeError
  else if c <? 128 then inr [byte_of_Z c]
  else if c <? 2048 then
    inr [byte_of_Z (Z.lor 192 (Z.shiftr c 6));
         byte_of_Z (Z.lor 128 (Z.land c 63))]
  else if c <? 65536 then
    if (55296 <=? c) && (c <=? 57343) then inl UnicodeEncodeError
    else
      inr [byte_of_Z (Z.lor 224 (Z.shiftr c 12));
           byte_of_Z (Z.lor 128 (Z.land (Z.shiftr c 6) 63));
           byte_of_Z (Z.lor 128 (Z.land c 63))]
  else if c <? 1114112 then
    inr [byte_of_Z (Z.lor 240 (Z.shiftr c 18));
         byte_of_Z (Z.lor 128 (Z.land (Z.shiftr c 12) 63));
         byte_of_Z (Z.lor 128 (Z.land (Z.shiftr c 6) 63));
         byte_of_Z (Z.lor 128 (Z.land c 63))]
  else inl UnicodeEncodeError.

Fixpoint utf8 (s : list N) : res (list byte) :=
  match s with
  | [] => inr []
  | c :: s' =>
      match utf8_char (Z.of_N c) with
      | inl e => inl e
      | inr bs =>
          match utf8 s' with
          | inl e => inl e
          | inr rest => inr (bs ++ rest)
          end
      end
  end.

(** [s.encode()]: defined on [str] only; [bytes] has no such attribute. *)
Definition encode (s : pyval) : res (list byte) :=
  match s with
  | PyStr cs => utf8 cs
  | PyBytes _ => inl AttributeError
  end.

(** ** The [struct] module, for the formats the client uses *)

Module Struct.

Definition signed (bits : Z) (u : Z) : Z :=
  if u <? 2 ^ (bits - 1) then u else u - 2 ^ bits.

Definition le_bytes (n : nat) (v : Z) : list byte :=
  map (fun i => byte_of_Z (Z.shiftr v (8 * Z.of_nat i))) (seq 0 n).

Fixpoint le_value (buf : list byte) : Z :=
  match buf with
  | [] => 0
  | b :: buf' => Z_of_byte b + 256 * le_value buf'
  end.

(** [struct.pack('b', v)] *)
Definition pack_b (v : Z) : res (list byte) :=
  if (-128 <=? v) && (v <=? 127) then inr [byte_of_Z v] else inl StructError.

(** [struct.unpack('b', buf)] *)
Definition unpack_b (buf : list byte) : res Z :=
  match buf with
  | [b] => inr (signed 8 (Z_of_byte b))
  | _ => inl StructError
  end.

(** [struct.pack('<i', v)] *)
Definition pack_i (v : Z) : res (list byte) :=
  if (- 2 ^ 31 <=? v) && (v <? 2 ^ 31) then inr (le_bytes 4 v)
  else inl StructError.

(** [struct.unpack('<i', buf)] *)
Definition unpack_i (buf : list byte) : res Z :=
  if Nat.eqb (length buf) 4 then inr (signed 32 (le_value buf))
  else inl StructError.

(** [struct.pack('<h', v)] *)
Definition pack_h (v : Z) : res (list byte) :=
  if (- 2 ^ 15 <=? v) && (v <? 2 ^ 15) then inr (le_bytes 2 v)
  else inl StructError.

(** [struct.unpack('<h', buf)] *)
Definition unpack_h (buf : list byte) : res Z :=
  if Nat.eqb (length buf) 2 then inr (signed 16 (le_value buf))
  else inl StructError.

(** [struct.pack('b%ds' % n, n, e)] *)
Definition pack_b_s (n : Z) (e : list byte) : res (list byte) :=
  match pack_b n with
  | inl err => inl err
  | inr p => inr (p ++ take (Z.to_nat n) e ++
                  replicate (Z.to_nat n - length e) x00)
  end.

(** [struct.unpack('%ds' % n, buf)] *)
Definition unpack_s (n : Z) (buf : list byte) : res (list byte) :=
  if (0 <=? n) && (Z.of_nat (length buf) =? n) then inr buf
  else inl StructError.

(** [struct.unpack('B')]: the buffer argument is missing, which is a
    [TypeError] whatever the data. *)
Definition unpack_B_no_buffer : res Z := inl TypeError.

End Struct.

(** ** The record model: the dictionaries built by the [create*] helpers *)

Record Stream := mkStream {
  stream_name : pyval;             (* s['name'] *)
  stream_type : pyval              (* s['type'] *)
}.

(** An endpoint dictionary.  A key that a given variant does not carry is
    [None]; reading it is a [KeyError]. *)
Record Endpoint := mkEndpoint {
  ep_endpoint : Z;                 (* e['endpoint'], an IntEnum value *)
  ep_host : option pyval;          (* e['host'] *)
  ep_address : option pyval;       (* e['address'] *)
  ep_port : option Z;              (* e['port'] *)
  ep_transport : option Z;         (* e['transport'] *)
  ep_streams : list Stream         (* e['streams'] *)
}.

Record Process := mkProcess {
  proc_name : pyval;               (* process['name'] *)
  proc_endpoints : list Endpoint;  (* process['endpoints'] *)
  proc_version : pyval             (* process['version'] *)
}.

#[global] Instance Stream_eq_decision : EqDecision Stream.
Proof. solve_decision. Defined.
#[global] Instance Endpoint_eq_decision : EqDecision Endpoint.
Proof. solve_decision. Defined.
#[global] Instance Process_eq_decision : EqDecision Process.
Proof. solve_decision. Defined.

(** [class Endpoint(IntEnum)] and [class TransportKind(IntEnum)]: a member
    compares equal to its integer, so a member is represented by it. *)
Module EndpointKind.
Definition TcpSource : Z := 0.
Definition NetMQSource : Z := 1.
Definition RemoteExporter : Z := 2.
Definition RemoteClockExporter : Z := 3.
(** [RendezvousClient.Endpoint(v)] *)
Definition of_value (v : Z) : res Z :=
  if (0 <=? v) && (v <=? 3) then inr v else inl ValueError.
End EndpointKind.

Module TransportKind.
Definition Tcp : Z := 0.
Definition Udp : Z := 1.
Definition NamedPipes : Z := 2.
(** [RendezvousClient.TransportKind(v)] *)
Definition of_value (v : Z) : res Z :=
  if (0 <=? v) && (v <=? 2) then inr v else inl ValueError.
End TransportKind.

Definition createStream (name type : pyval) : Stream :=
  {| stream_name := name; stream_type := type |}.

Definition createTcpEndpoint (host : pyval) (port : Z) (streams : list Stream)
  : Endpoint :=
  {| ep_endpoint := EndpointKind.TcpSource;
     ep_host := Some host; ep_address := None; ep_port := Some port;
     ep_transport := None; ep_streams := streams |}.

Definition createNetMQEndpoint (address : pyval) (streams : list Stream)
  : Endpoint :=
  {| ep_endpoint := EndpointKind.NetMQSource;
     ep_host := None; ep_address := Some address; ep_port := None;
     ep_transport := None; ep_streams := streams |}.

Definition createRemoteExporterEndpoint (host : pyval) (port transport : Z)
    (streams : list Stream) : Endpoint :=
  {| ep_endpoint := EndpointKind.RemoteExporter;
     ep_host := Some host; ep_address := None; ep_port := Some port;
     ep_transport := Some transport; ep_streams := streams |}.

Definition createRemoteClockExporterEndpoint (host : pyval) (port : Z)
  : Endpoint :=
  {| ep_endpoint := EndpointKind.RemoteClockExporter;
     ep_host := Some host; ep_address := None; ep_port := Some port;
     ep_transport := None; ep_streams := [] |}.

Definition createProcess (name : pyval) (endpoints : list Endpoint)
    (version : pyval) : Process :=
  {| proc_name := name; proc_endpoints := endpoints; proc_version := version |}.

(** ** State

    [rendezvous = {}] is written in the class body: it is one dictionary,
    an attribute of the class, which every instance reaches through
    [self.rendezvous].  [__init__] gives an instance its [serverAddress]
    and its [socket]; [start] adds the two callbacks.  The state a method
    runs in is therefore the class dictionary together with the instance
    it is called on. *)

(** What a callback was invoked with. *)
Inductive Event : Type :=
| ProcessAdded (p : Process)
| ProcessRemoved (p : Process).

Record Instance := mkInstance {
  serverAddress : pyval * Z;
  (* self.socket: the deliveries the peer makes on this connection, in
     order (each one is what a single arrival puts in the receive buffer;
     after the last one the peer has closed), and the bytes sent so far *)
  inbound : list (list byte);
  outbound : list byte;
  reachable : bool;                (* does connect() find the server *)
  onProcessAdded : bool;           (* self.onProcessAdded is not None *)
  onProcessRemoved : bool;         (* self.onProcessRemoved is not None *)
  clientAddress : option (list byte);
  thread_started : bool;           (* self.thread.start() was reached *)
  delivered : list Event           (* callback invocations, oldest first *)
}.

Record State := mkState {
  rendezvous : gmap pyval Process; (* RendezvousClient.rendezvous *)
  self : Instance
}.

(** [RendezvousClient(host, port)], with the default [port = 13331]. *)
Definition init (host : pyval) (port : option Z) (server_up : bool)
    (from_server : list (list byte)) : Instance :=
  {| serverAddress := (host, default 13331 port);
     inbound := from_server; outbound := []; reachable := server_up;
     onProcessAdded := false; onProcessRemoved := false;
     clientAddress := None; thread_started := false; delivered := [] |}.

Definition set_inbound (cs : list (list byte)) (st : State) : State :=
  let i := self st in
  {| rendezvous := rendezvous st;
     self := {| serverAddress := serverAddress i; inbound := cs;
                outbound := outbound i; reachable := reachable i;
                onProcessAdded := onProcessAdded i;
                onProcessRemoved := onProcessRemoved i;
                clientAddress := clientAddress i;
                thread_started := thread_started i;
                delivered := delivered i |} |}.

Definition add_outbound (bs : list byte) (st : State) : State :=
  let i := self st in
  {| rendezvous := rendezvous st;
     self := {| serverAddress := serverAddress i; inbound := inbound i;
                outbound := outbound i ++ bs; reachable := reachable i;
                onProcessAdded := onProcessAdded i;
                onProcessRemoved := onProcessRemoved i;
                clientAddress := clientAddress i;
                thread_started := thread_started i;
                delivered := delivered i |} |}.

Definition set_callbacks (added removed : bool) (st : State) : State :=
  let i := self st in
  {| rendezvous := rendezvous st;
     self := {| serverAddress := serverAddress i; inbound := inbound i;
                outbound := outbound i; reachable := reachable i;
                onProcessAdded := added;
                onProcessRemoved := removed;
                clientAddress := clientAddress i;
                thread_started := thread_started i;
                delivered := delivered i |} |}.

Definition set_clientAddress (a : list byte) (st : State) : State :=
  let i := self st in
  {| rendezvous := rendezvous st;
     self := {| serverAddress := serverAddress i; inbound := inbound i;
                outbound := outbound i; reachable := reachable i;
                onProcessAdded := onProcessAdded i;
                onProcessRemoved := onProcessRemoved i;
                clientAddress := Some a;
                thread_started := thread_started i;
                delivered := delivered i |} |}.

Definition set_thread_started (st : State) : State :=
  let i := self st in
  {| rendezvous := rendezvous st;
     self := {| serverAddress := serverAddress i; inbound := inbound i;
                outbound := outbound i; reachable := reachable i;
                onProcessAdded := onProcessAdded i;
                onProcessRemoved := onProcessRemoved i;
                clientAddress := clientAddress i;
                thread_started := true;
                delivered := delivered i |} |}.

Definition add_delivered (ev : Event) (st : State) : State :=
  let i := self st in
  {| rendezvous := rendezvous st;
     self := {| serverAddress := serverAddress i; inbound := inbound i;
                outbound := outbound i; reachable := reachable i;
                onProcessAdded := onProcessAdded i;
                onProcessRemoved := onProcessRemoved i;
                clientAddress := clientAddress i;
                thread_started := thread_started i;
                delivered := delivered i ++ [ev] |} |}.

Definition set_rendezvous (t : gmap pyval Process) (st : State) : State :=
  {| rendezvous := t; self := self st |}.

(** ** The monad: state that survives an exception *)

Definition M (A : Type) : Type := State -> res A * State.

Definition ret {A} (a : A) : M A := fun st => (inr a, st).

Definition raise {A} (e : exn) : M A := fun st => (inl e, st).

Definition bind {A B} (m : M A) (k : A -> M B) : M B :=
  fun st =>
    match m st with
    | (inl e, st') => (inl e, st')
    | (inr a, st') => k a st'
    end.

Definition lift {A} (r : res A) : M A :=
  match r with
  | inl e => raise e
  | inr a => ret a
  end.

Notation "'let!' x := m 'in' k" := (bind m (fun x => k))
  (at level 10, x name, m at level 100, k at level 200).
Notation "'run!' m 'in' k" := (bind m (fun _ => k))
  (at level 10, m at level 100, k at level 200).

(** [for x in xs: body(x)] *)
Fixpoint for_each {A} (xs : list A) (body : A -> M unit) : M unit :=
  match xs with
  | [] => ret tt
  | x :: xs' => run! body x in for_each xs' body
  end.

(** [for _ in range(n): acc.append(body())] *)
Fixpoint collect {A} (n : nat) (body : M A) : M (list A) :=
  match n with
  | O => ret []
  | S n' => let! x := body in let! xs := collect n' body in ret (x :: xs)
  end.

(** [for _ in range(n): body()] *)
Fixpoint repeat_ {A} (n : nat) (body : M A) : M unit :=
  match n with
  | O => ret tt
  | S n' => run! body in repeat_ n' body
  end.

(** [dict[key]] on an endpoint dictionary *)
Definition item {A} (field : option A) : M A :=
  match field with
  | Some v => ret v
  | None => raise KeyError
  end.

(** ** The socket *)

(** [self.socket.connect(self.serverAddress)] *)
Definition socket_connect : M unit :=
  fun st => if reachable (self st) then (inr tt, st)
            else (inl ConnectionRefusedError, st).

(** [self.socket.send(data)]: the data is appended to what was sent. *)
Definition socket_send (data : list byte) : M unit :=
  fun st => (inr tt, add_outbound data st).

(** What one [recv] takes from the receive buffer: at most [k] bytes of
    the delivery at its head, and nothing ([b'']) once the peer has
    closed. *)
Fixpoint take_delivery (k : nat) (cs : list (list byte))
  : list byte * list (list byte) :=
  match cs with
  | [] => ([], [])
  | [] :: cs' => take_delivery k cs'
  | c :: cs' => (take k c, drop k c :: cs')
  end.

(** [self.socket.recv(bufsize)] *)
Definition socket_recv (bufsize : Z) : M (list byte) :=
  fun st =>
    if bufsize <? 0 then (inl ValueError, st)
    else if bufsize =? 0 then (inr [], st)
    else
      let '(data, cs) := take_delivery (Z.to_nat bufsize) (inbound (self st)) in
      (inr data, set_inbound cs st).

(** ** Wire codec *)

Definition PROTOCOL_VERSION : Z := 2.

Definition sendByte (b : Z) : M unit :=
  let! data := lift (Struct.pack_b b) in socket_send data.

Definition readByte : M Z :=
  let! buf := socket_recv 1 in lift (Struct.unpack_b buf).

Definition sendInt (c : Z) : M unit :=
  let! data := lift (Struct.pack_i c) in socket_send data.

Definition readInt : M Z :=
  let! buf := socket_recv 4 in lift (Struct.unpack_i buf).

Definition sendString (s : pyval) : M unit :=
  let! e := lift (encode s) in
  let! data := lift (Struct.pack_b_s (Z.of_nat (length e)) e) in
  socket_send data.

Definition readString : M pyval :=
  let! len := readByte in
  let! buf := socket_recv len in
  let! str := lift (Struct.unpack_s len buf) in
  ret (PyBytes str).

Definition sendProtocolVersion : M unit :=
  let! data := lift (Struct.pack_h PROTOCOL_VERSION) in socket_send data.

Definition readProtocolVersion : M unit :=
  let! buf := socket_recv 2 in
  let! version := lift (Struct.unpack_h buf) in
  if version =? PROTOCOL_VERSION then ret tt
  else raise (PyException "RendezvousClient protocol mismatch 2").

(** ** Client control: [start], [addProcess], [removeProcess] *)

Definition send_endpoint_fields (e : Endpoint) : M unit :=
  if ep_endpoint e =? EndpointKind.TcpSource then
    let! host := item (ep_host e) in
    run! sendString host in
    let! port := item (ep_port e) in
    sendInt port
  else if ep_endpoint e =? EndpointKind.NetMQSource then
    let! address := item (ep_address e) in
    sendString address
  else if ep_endpoint e =? EndpointKind.RemoteExporter then
    let! host := item (ep_host e) in
    run! sendString host in
    let! port := item (ep_port e) in
    run! sendInt port in
    let! transport := item (ep_transport e) in
    sendInt transport
  else if ep_endpoint e =? EndpointKind.RemoteClockExporter then
    let! host := item (ep_host e) in
    run! sendString host in
    let! port := item (ep_port e) in
    sendInt port
  else raise (PyException "Unknown type of Endpoint.").

Definition send_stream (s : Stream) : M unit :=
  run! sendString (stream_name s) in
  sendString (stream_type s).

(** The body of [for e in process['endpoints']]. *)
Definition send_endpoint (e : Endpoint) : M unit :=
  run! sendByte (ep_endpoint e) in
  run! send_endpoint_fields e in
  run! sendInt (Z.of_nat (length (ep_streams e))) in
  for_each (ep_streams e) send_stream.

(** What [addProcess] sends after the frame tag. *)
Definition send_process (process : Process) : M unit :=
  run! sendString (proc_name process) in
  run! sendString (proc_version process) in
  run! sendInt (Z.of_nat (length (proc_endpoints process))) in
  for_each (proc_endpoints process) send_endpoint.

Definition addProcess (process : Process) : M unit :=
  run! sendByte 1 in
  send_process process.

Definition removeProcess (process : Process) : M unit :=
  run! sendByte 2 in
  sendString (proc_name process).

(** ** Decoding *)

Definition readStreams : M (list Stream) :=
  let! count := readInt in
  collect (Z.to_nat count)
    (let! name := readString in
     let! type := readString in
     ret (createStream name type)).

Definition readEndpoint : M Endpoint :=
  let! b := readByte in
  let! endpoint := lift (EndpointKind.of_value b) in
  if endpoint =? EndpointKind.TcpSource then
    let! host := readString in
    let! port := readInt in
    let! streams := readStreams in
    ret (createTcpEndpoint host port streams)
  else if endpoint =? EndpointKind.NetMQSource then
    let! address := readString in
    let! streams := readStreams in
    ret (createNetMQEndpoint address streams)
  else if endpoint =? EndpointKind.RemoteExporter then
    let! host := readString in
    let! port := readInt in
    let! t := readInt in
    let! transport := lift (TransportKind.of_value t) in
    let! streams := readStreams in
    ret (createRemoteExporterEndpoint host port transport streams)
  else if endpoint =? EndpointKind.RemoteClockExporter then
    let! host := readString in
    let! port := readInt in
    run! readInt in
    ret (createRemoteClockExporterEndpoint host port)
  else raise (PyException "Unknown type of Endpoint.").

Definition readProcess : M Process :=
  let! name := readString in
  let! version := readString in
  let! numEndpoints := readInt in
  let! endpoints := collect (Z.to_nat numEndpoints) readEndpoint in
  ret (createProcess name endpoints version).

(** [self.rendezvous[key] = process] *)
Definition rendezvous_setitem (key : pyval) (process : Process) : M unit :=
  fun st => (inr tt, set_rendezvous (<[key := process]> (rendezvous st)) st).

(** [self.rendezvous.pop(key)] *)
Definition rendezvous_pop (key : pyval) : M Process :=
  fun st =>
    match rendezvous st !! key with
    | Some p => (inr p, set_rendezvous (delete key (rendezvous st)) st)
    | None => (inl KeyError, st)
    end.

(** [if cb is not None: cb(arg)] *)
Definition invoke (registered : Instance -> bool) (ev : Event) : M unit :=
  fun st => if registered (self st) then (inr tt, add_delivered ev st)
            else (inr tt, st).

Definition readProcessUpdate : M bool :=
  let! update := readByte in
  if update =? 0 then ret false
  else if update =? 1 then
    let! process := readProcess in
    run! rendezvous_setitem (proc_name process) process in
    run! invoke onProcessAdded (ProcessAdded process) in
    ret true
  else if update =? 2 then
    let! name := readString in
    let! removed := rendezvous_pop name in
    run! invoke onProcessRemoved (ProcessRemoved removed) in
    ret true
  else raise (PyException "Unexpected rendezvous action.").

(** [while self.__readProcessUpdate(): pass] under [try: ... except: pass].
    [None] only when the fuel is used up before the loop ends. *)
Fixpoint readProcessUpdates_loop (fuel : nat) (st : State) : option State :=
  match fuel with
  | O => None
  | S fuel' =>
      match readProcessUpdate st with
      | (inr true, st') => readProcessUpdates_loop fuel' st'
      | (inr false, st') => Some st'
      | (inl _, st') => Some st'
      end
  end.

(** Every turn of the loop that continues has taken a byte off the socket,
    so one more turn than there are bytes to come is always enough. *)
Definition pending (st : State) : nat := length (concat (inbound (self st))).

Definition readProcessUpdates (st : State) : option State :=
  readProcessUpdates_loop (S (pending st)) st.

Definition start (processAddedCallback processRemovedCallback : bool) : M unit :=
  run! socket_connect in
  run! (fun st => (inr tt,
          set_callbacks processAddedCallback processRemovedCallback st)) in
  run! sendProtocolVersion in
  run! readProtocolVersion in
  let! buf := socket_recv 1 in
  let! len := lift Struct.unpack_B_no_buffer in
  let! buf := socket_recv len in
  let! addr := lift (Struct.unpack_s len buf) in
  run! (fun st => (inr tt, set_clientAddress addr st)) in
  let! buf := socket_recv 4 in
  let! numProcesses := lift (Struct.unpack_i buf) in
  run! repeat_ (Z.to_nat numProcesses) readProcessUpdate in
  fun st => (inr tt, set_thread_started st).

(** ** Reasoning about decoders and encoders

    [reads m wire v]: with [wire] at the head of the delivery at the front
    of the receive buffer, [m] returns [v] and takes exactly [wire] off.
    [sends m wire]: [m] returns normally having sent exactly [wire]. *)

Definition reads {A} (m : M A) (wire : list byte) (v : A) : Prop :=
  forall st rest more,
    inbound (self st) = (wire ++ rest) :: more ->
    m st = (inr v, set_inbound (rest :: more) st).

Definition sends (m : M unit) (wire : list byte) : Prop :=
  forall st, m st = (inr tt, add_outbound wire st).

(** ** The wire image of a record

    What the encoder puts on the socket for a value, written as a function
    of the value, and the record the decoder builds from it. *)

(** The encoded text of a string field (nothing where [encode] raises). *)
Definition text (v : pyval) : list byte :=
  match encode v with
  | inr e => e
  | inl _ => []
  end.

Definition wire_string (e : list byte) : list byte :=
  byte_of_Z (Z.of_nat (length e)) :: e.

Definition wire_int (v : Z) : list byte := Struct.le_bytes 4 v.

Definition wire_stream (s : Stream) : list byte :=
  wire_string (text (stream_name s)) ++ wire_string (text (stream_type s)).

Definition wire_host_port (e : Endpoint) : list byte :=
  wire_string (text (default (PyStr []) (ep_host e))) ++
  wire_int (default 0 (ep_port e)).

Definition wire_fields (e : Endpoint) : list byte :=
  if ep_endpoint e =? EndpointKind.TcpSource then wire_host_port e
  else if ep_endpoint e =? EndpointKind.NetMQSource then
    wire_string (text (default (PyStr []) (ep_address e)))
  else if ep_endpoint e =? EndpointKind.RemoteExporter then
    wire_host_port e ++ wire_int (default 0 (ep_transport e))
  else wire_host_port e.

Definition wire_endpoint (e : Endpoint) : list byte :=
  byte_of_Z (ep_endpoint e) :: wire_fields e ++
  wire_int (Z.of_nat (length (ep_streams e))) ++
  concat (map wire_stream (ep_streams e)).

Definition wire_process (p : Process) : list byte :=
  wire_string (text (proc_name p)) ++ wire_string (text (proc_version p)) ++
  wire_int (Z.of_nat (length (proc_endpoints p))) ++
  concat (map wire_endpoint (proc_endpoints p)).

(** The decoder hands back the raw bytes of every string: [__readString]
    returns what [struct.unpack] gives it and decodes no text. *)
Definition received_string (v : pyval) : pyval := PyBytes (text v).

Definition received_stream (s : Stream) : Stream :=
  createStream (received_string (stream_name s))
               (received_string (stream_type s)).

Definition received_endpoint (e : Endpoint) : Endpoint :=
  {| ep_endpoint := ep_endpoint e;
     ep_host := option_map received_string (ep_host e);
     ep_address := option_map received_string (ep_address e);
     ep_port := ep_port e;
     ep_transport := ep_transport e;
     ep_streams := map received_stream (ep_streams e) |}.

Definition received_process (p : Process) : Process :=
  createProcess (received_string (proc_name p))
                (map received_endpoint (proc_endpoints p))
                (received_string (proc_version p)).

(** ** Records the wire format can carry *)

Definition int32 (v : Z) : Prop := - 2 ^ 31 <= v < 2 ^ 31.

(** A string field is short when it is text whose encoding fits the
    one-byte length prefix. *)
Definition short (v : pyval) : Prop :=
  exists e, encode v = inr e /\ (length e <= 127)%nat.

Definition wf_stream (s : Stream) : Prop :=
  short (stream_name s) /\ short (stream_type s).

Definition wf_streams (ss : list Stream) : Prop :=
  int32 (Z.of_nat (length ss)) /\ Forall wf_stream ss.

Inductive wf_endpoint : Endpoint -> Prop :=
| wf_TcpSource host port streams :
    short host -> int32 port -> wf_streams streams ->
    wf_endpoint (createTcpEndpoint host port streams)
| wf_NetMQSource address streams :
    short address -> wf_streams streams ->
    wf_endpoint (createNetMQEndpoint address streams)
| wf_RemoteExporter host port transport streams :
    short host -> int32 port -> 0 <= transport <= 2 -> wf_streams streams ->
    wf_endpoint (createRemoteExporterEndpoint host port transport streams)
| wf_RemoteClockExporter host port :
    short host -> int32 port ->
    wf_endpoint (createRemoteClockExporterEndpoint host port).

Definition wf_process (p : Process) : Prop :=
  short (proc_name p) /\ short (proc_version p) /\
  int32 (Z.of_nat (length (proc_endpoints p))) /\
  Forall wf_endpoint (proc_endpoints p).

(** Literals, for examples: the code points, or the bytes, of an ASCII
    string. *)
Definition str (s : string) : pyval :=
  PyStr (map Byte.to_N (list_byte_of_string s)).

Definition bytes (s : string) : pyval := PyBytes (list_byte_of_string s).

(** ** Examples to evaluate on *)

(** A client right after construction, before any other has run. *)
Definition fresh (from_server : list (list byte)) : State :=
  {| rendezvous := ∅;
     self := init (str "localhost") None true from_server |}.

Definition camera1 : Process :=
  createProcess (str "camera1")
    [createTcpEndpoint (str "10.0.0.5") 5000
       [createStream (str "rgb") (str "image")]]
    (str "1.0").

(** The bytes still to come, whatever the deliveries they come in. *)
Definition stream (st : State) : list byte := concat (inbound (self st)).

(** ** What a method can change *)

(** A decoder changes nothing but the receive buffer; an encoder nothing
    but the bytes sent.  Both hold whether the method returns or raises. *)
Definition only_reads {A} (m : M A) : Prop :=
  forall st, snd (m st) = set_inbound (inbound (self (snd (m st)))) st.

Definition only_sends {A} (m : M A) : Prop :=
  forall st, exists data, snd (m st) = add_outbound data st.

(** A table that already holds the decoded camera1. *)
Definition knows_camera1 (from_server : list (list byte)) : State :=
  {| rendezvous := {[ bytes "camera1" := received_process camera1 ]};
     self := init (str "localhost") None true from_server |}.

(** The head of a process record: name, version, endpoint count. *)
Definition readHeader : M (pyval * pyval * Z) :=
  let! name := readString in
  let! version := readString in
  let! numEndpoints := readInt in
  ret (name, version, numEndpoints).

(** ** Several clients in one program *)

(** [rendezvous = {}] is evaluated once, when the class body runs, and no
    method ever assigns [self.rendezvous]: every instance's
    [self.rendezvous] is that one dictionary. *)
Record World := mkWorld {
  class_rendezvous : gmap pyval Process;
  instances : list Instance
}.

(** The program once the class has been defined. *)
Definition boot : World := {| class_rendezvous := ∅; instances := [] |}.

(** [RendezvousClient(host, port)]: [__init__] sets [serverAddress] and
    [socket] and nothing else. *)
Definition construct (host : pyval) (port : option Z) (server_up : bool)
    (from_server : list (list byte)) (w : World) : World :=
  {| class_rendezvous := class_rendezvous w;
     instances := instances w ++ [init host port server_up from_server] |}.

(** Method [m] called on the [i]-th instance. *)
Definition call {A} (i : nat) (m : M A) (w : World) : option (res A * World) :=
  match instances w !! i with
  | None => None
  | Some c =>
      let '(r, st) := m {| rendezvous := class_rendezvous w; self := c |} in
      Some (r, {| class_rendezvous := rendezvous st;
                  instances := <[i := self st]> (instances w) |})
  end.

(** [client.rendezvous] read on the [i]-th instance. *)
Definition table_of (i : nat) (w : World) : option (gmap pyval Process) :=
  match instances w !! i with
  | None => None
  | Some _ => Some (class_rendezvous w)
  end.

(** Two clients; the server of the first one announces camera1. *)
Definition two_clients : World :=
  construct (str "hostB") None true []
    (construct (str "hostA") None true [x01 :: wire_process camera1] boot).

(** ** How an encoder can end *)

(** The exceptions the codec and the dictionaries raise by themselves, as
    opposed to those a [raise] statement of the client creates. *)
Definition builtin (e : exn) : Prop :=
  match e with
  | PyException _ => False
  | _ => True
  end.

(** [plain m wire]: [m] either returns having sent exactly [wire], or
    raises a built-in exception. *)
Definition plain (m : M unit) (wire : list byte) : Prop :=
  forall st,
    match m st with
    | (inr _, st') => st' = add_outbound wire st
    | (inl e, _) => builtin e
    end.

(** How sending one endpoint ends: normally, with its whole encoding sent;
    or at the [raise] for an unknown tag, with the tag byte alone sent; or
    with a built-in exception. *)
Definition endpoint_outcome (e : Endpoint) (st : State)
    (r : res unit * State) : Prop :=
  match r with
  | (inr _, st') => st' = add_outbound (wire_endpoint e) st
  | (inl (PyException msg), st') =>
      msg = "Unknown type of Endpoint."%string /\
      ~ 0 <= ep_endpoint e <= 3 /\
      st' = add_outbound [byte_of_Z (ep_endpoint e)] st
  | (inl _, _) => True
  end.

Definition endpoints_outcome (es : list Endpoint) (st : State)
    (r : res unit * State) : Prop :=
  match r with
  | (inr _, st') => st' = add_outbound (concat (map wire_endpoint es)) st
  | (inl (PyException msg), st') =>
      exists before e after,
        es = before ++ e :: after /\
        ~ 0 <= ep_endpoint e <= 3 /\
        st' = add_outbound (concat (map wire_endpoint before) ++
                            [byte_of_Z (ep_endpoint e)]) st
  | (inl _, _) => True
  end.

(** A process whose only endpoint carries the tag 7. *)
Definition odd_process : Process :=
  createProcess (str "p") [mkEndpoint 7 None None None None []] (str "1").

(** A process whose only endpoint carries the tag 200, which no signed
    byte holds. *)
Definition far_process : Process :=
  createProcess (str "p") [mkEndpoint 200 None None None None []] (str "1").

(** No method puts bytes back on the socket. *)
Definition consumes {A} (m : M A) : Prop :=
  forall st, (length (stream (snd (m st))) <= length (stream st))%nat.

(** ** Records as the decoder builds them *)

(** A stream, an endpoint, a process as [__readStreams], [__readEndpoint]
    and [__readProcess] can return them: built by the [create*] helpers,
    with bytes objects for strings, a transport among the three kinds and
    no stream on a clock exporter. *)
Definition decoded_stream (s : Stream) : Prop :=
  exists name type, s = createStream (PyBytes name) (PyBytes type).

Definition decoded_endpoint (e : Endpoint) : Prop :=
  (exists host port streams,
     e = createTcpEndpoint (PyBytes host) port streams /\
     Forall decoded_stream streams) \/
  (exists address streams,
     e = createNetMQEndpoint (PyBytes address) streams /\
     Forall decoded_stream streams) \/
  (exists host port transport streams,
     e = createRemoteExporterEndpoint (PyBytes host) port transport streams /\
     0 <= transport <= 2 /\ Forall decoded_stream streams) \/
  (exists host port,
     e = createRemoteClockExporterEndpoint (PyBytes host) port).

Definition decoded_process (p : Process) : Prop :=
  exists name version endpoints,
    p = createProcess (PyBytes name) endpoints (PyBytes version) /\
    Forall decoded_endpoint endpoints.

(** ** Frames and their effect on the table *)

(** The add-process and remove-process frames for a process, as
    [addProcess] and [removeProcess] write them. *)
Definition frame_add (p : Process) : list byte := x01 :: wire_process p.

Definition frame_remove (p : Process) : list byte :=
  x02 :: wire_string (text (proc_name p)).

(** What [__readProcessUpdate] does to the state once it has decoded an
    add-process frame: [self.rendezvous[process['name']] = process], then
    the callback if there is one. *)
Definition added (p : Process) (st : State) : State :=
  let st1 := set_rendezvous (<[proc_name p := p]> (rendezvous st)) st in
  if onProcessAdded (self st) then add_delivered (ProcessAdded p) st1 else st1.

(** And once it has decoded a remove-process frame for a name that is in
    the table: the entry is popped, then the callback if there is one. *)
Definition removed (name : pyval) (p : Process) (st : State) : State :=
  let st1 := set_rendezvous (delete name (rendezvous st)) st in
  if onProcessRemoved (self st) then add_delivered (ProcessRemoved p) st1
  else st1.

(** Every key of the table is the name of the process stored under it,
    and every process stored is a record as the decoder builds them (so
    that every key is a [bytes] object). *)
Definition keyed_by_name (t : gmap pyval Process) : Prop :=
  forall k p, t !! k = Some p -> proc_name p = k /\ decoded_process p.

(** What the listener leaves alone: the bytes sent, the server address, the
    registered callbacks; and the callback log only grows, and does not
    grow at all when no callback is registered. *)
Definition listened (st st' : State) : Prop :=
  outbound (self st') = outbound (self st) /\
  serverAddress (self st') = serverAddress (self st) /\
  onProcessAdded (self st') = onProcessAdded (self st) /\
  onProcessRemoved (self st') = onProcessRemoved (self st) /\
  exists events,
    delivered (self st') = delivered (self st) ++ events /\
    (onProcessAdded (self st) = false ->
     onProcessRemoved (self st) = false -> events = []).

(** A clock-exporter dictionary to which streams have been attached. *)
Definition clock_with_streams (host : pyval) (port : Z) (streams : list Stream)
  : Endpoint :=
  {| ep_endpoint := EndpointKind.RemoteClockExporter;
     ep_host := Some host; ep_address := None; ep_port := Some port;
     ep_transport := None; ep_streams := streams |}.

(** ** Deliveries *)

(** The delivery the next [recv] takes its bytes from: the first one in
    the receive buffer that is not empty ([b''] when none is left). *)
Fixpoint first_delivery (cs : list (list byte)) : list byte :=
  match cs with
  | [] => []
  | [] :: cs' => first_delivery cs'
  | c :: _ => c
  end.

Definition nonempty (c : list byte) : bool :=
  match c with
  | [] => false
  | _ :: _ => true
  end.

(** Two states that differ at most by where empty deliveries stand in the
    receive buffer. *)
Definition same_but_empty_deliveries (st st' : State) : Prop :=
  exists base c c',
    st = set_inbound c base /\ st' = set_inbound c' base /\
    List.filter nonempty c = List.filter nonempty c'.

(** A method that cannot tell such states apart. *)
Definition respects {A} (m : M A) : Prop :=
  forall st st',
    same_but_empty_deliveries st st' ->
    fst (m st) = fst (m st') /\
    same_but_empty_deliveries (snd (m st)) (snd (m st')).

(** * Properties *)

(** ** Bytes and the [struct] formats *)

Lemma Z_of_byte_range (b : byte) : 0 <= Z_of_byte b < 256.
Proof.
  unfold Z_of_byte. pose proof (Byte.to_N_bounded b) as H.
  split; [apply N2Z.is_nonneg|]. lia.
Qed.

Lemma Z_of_byte_of_Z (z : Z) : Z_of_byte (byte_of_Z z) = z mod 256.
Proof.
  unfold Z_of_byte, byte_of_Z.
  assert (Hr : 0 <= z mod 256 < 256) by (apply Z.mod_pos_bound; lia).
  destruct (Byte.of_N (Z.to_N (z mod 256))) as [b|] eqn:E.
  - apply Byte.to_of_N in E. simpl. rewrite E. lia.
  - apply Byte.of_N_None_iff in E. lia.
Qed.

Lemma byte_of_Z_of_byte (b : byte) : byte_of_Z (Z_of_byte b) = b.
Proof.
  unfold byte_of_Z. pose proof (Z_of_byte_range b) as H.
  rewrite Z.mod_small by exact H.
  unfold Z_of_byte. rewrite N2Z.id, Byte.of_to_N. reflexivity.
Qed.

Lemma unpack_b_pack_b (v : Z) :
  -128 <= v <= 127 ->
  Struct.pack_b v = inr [byte_of_Z v] /\
  Struct.unpack_b [byte_of_Z v] = inr v.
Proof.
  intros H. unfold Struct.pack_b, Struct.unpack_b, Struct.signed.
  rewrite Z_of_byte_of_Z.
  replace ((-128 <=? v) && (v <=? 127)) with true
    by (symmetry; apply andb_true_intro; split; lia).
  split; [reflexivity|]. f_equal.
  change (2 ^ (8 - 1)) with 128. change (2 ^ 8) with 256.
  destruct (Z.ltb_spec (v mod 256) 128) as [Hlt|Hge];
    pose proof (Z.div_mod v 256 ltac:(lia));
    pose proof (Z.mod_pos_bound v 256 ltac:(lia)); lia.
Qed.

Lemma le_value_le_bytes_4 (v : Z) :
  Struct.le_value (Struct.le_bytes 4 v) = v mod 2 ^ 32.
Proof.
  unfold Struct.le_bytes. cbn [seq map Struct.le_value].
  rewrite !Z_of_byte_of_Z, !Z.shiftr_div_pow2 by lia.
  change (2 ^ (8 * Z.of_nat 0)) with 1. change (2 ^ (8 * Z.of_nat 1)) with 256.
  change (2 ^ (8 * Z.of_nat 2)) with 65536.
  change (2 ^ (8 * Z.of_nat 3)) with 16777216.
  change (2 ^ 32) with 4294967296.
  rewrite Z.div_1_r.
  Z.div_mod_to_equations. lia.
Qed.

Lemma le_value_le_bytes_2 (v : Z) :
  Struct.le_value (Struct.le_bytes 2 v) = v mod 2 ^ 16.
Proof.
  unfold Struct.le_bytes. cbn [seq map Struct.le_value].
  rewrite !Z_of_byte_of_Z, !Z.shiftr_div_pow2 by lia.
  change (2 ^ (8 * Z.of_nat 0)) with 1. change (2 ^ (8 * Z.of_nat 1)) with 256.
  change (2 ^ 16) with 65536.
  rewrite Z.div_1_r.
  Z.div_mod_to_equations. lia.
Qed.

Lemma signed_mod (bits v : Z) :
  0 < bits -> - 2 ^ (bits - 1) <= v < 2 ^ (bits - 1) ->
  Struct.signed bits (v mod 2 ^ bits) = v.
Proof.
  intros Hb H. unfold Struct.signed.
  assert (Hp : 2 ^ bits = 2 * 2 ^ (bits - 1)).
  { replace bits with (Z.succ (bits - 1)) at 1 by lia.
    apply Z.pow_succ_r. lia. }
  assert (Hpos : 0 < 2 ^ (bits - 1)) by (apply Z.pow_pos_nonneg; lia).
  pose proof (Z.div_mod v (2 ^ bits) ltac:(lia)) as Hdm.
  pose proof (Z.mod_pos_bound v (2 ^ bits) ltac:(lia)) as Hm.
  revert Hdm Hm. rewrite Hp.
  generalize (v / (2 * 2 ^ (bits - 1))) (v mod (2 * 2 ^ (bits - 1))).
  generalize dependent (2 ^ (bits - 1)).
  intros P H Hp Hpos q r Hdm Hm.
  assert (Hq : q = 0 \/ q = -1) by nia.
  destruct (Z.ltb_spec r P); destruct Hq; subst q; lia.
Qed.

Lemma unpack_i_pack_i (v : Z) :
  - 2 ^ 31 <= v < 2 ^ 31 ->
  Struct.pack_i v = inr (Struct.le_bytes 4 v) /\
  Struct.unpack_i (Struct.le_bytes 4 v) = inr v.
Proof.
  intros H. unfold Struct.pack_i, Struct.unpack_i.
  replace ((- 2 ^ 31 <=? v) && (v <? 2 ^ 31)) with true
    by (symmetry; apply andb_true_intro; split; lia).
  split; [reflexivity|].
  change (length (Struct.le_bytes 4 v)) with 4%nat. cbn [Nat.eqb].
  rewrite le_value_le_bytes_4.
  f_equal. apply signed_mod; [lia|]. exact H.
Qed.

Lemma unpack_h_pack_h (v : Z) :
  - 2 ^ 15 <= v < 2 ^ 15 ->
  Struct.pack_h v = inr (Struct.le_bytes 2 v) /\
  Struct.unpack_h (Struct.le_bytes 2 v) = inr v.
Proof.
  intros H. unfold Struct.pack_h, Struct.unpack_h.
  replace ((- 2 ^ 15 <=? v) && (v <? 2 ^ 15)) with true
    by (symmetry; apply andb_true_intro; split; lia).
  split; [reflexivity|].
  change (length (Struct.le_bytes 2 v)) with 2%nat. cbn [Nat.eqb].
  rewrite le_value_le_bytes_2.
  f_equal. apply signed_mod; [lia|]. exact H.
Qed.

(** ** The state and its updates *)

Lemma set_inbound_same (st : State) : set_inbound (inbound (self st)) st = st.
Proof. destruct st as [t []]. reflexivity. Qed.

Lemma set_inbound_twice (c1 c2 : list (list byte)) (st : State) :
  set_inbound c2 (set_inbound c1 st) = set_inbound c2 st.
Proof. reflexivity. Qed.

Lemma add_outbound_nil (st : State) : add_outbound [] st = st.
Proof.
  destruct st as [t []]. unfold add_outbound. simpl.
  rewrite app_nil_r. reflexivity.
Qed.

Lemma add_outbound_twice (b1 b2 : list byte) (st : State) :
  add_outbound b2 (add_outbound b1 st) = add_outbound (b1 ++ b2) st.
Proof. unfold add_outbound. simpl. rewrite app_assoc. reflexivity. Qed.

Lemma bind_ret {A B} (a : A) (k : A -> M B) : bind (ret a) k = k a.
Proof. reflexivity. Qed.

Lemma reads_ret {A} (v : A) : reads (ret v) [] v.
Proof.
  intros st rest more H. simpl in H. unfold ret.
  rewrite <- H, set_inbound_same. reflexivity.
Qed.

Lemma reads_bind {A B} (m : M A) (k : A -> M B) w1 w2 (a : A) (b : B) :
  reads m w1 a -> reads (k a) w2 b -> reads (bind m k) (w1 ++ w2) b.
Proof.
  intros Hm Hk st rest more H. unfold bind.
  rewrite <- app_assoc in H. rewrite (Hm _ _ _ H).
  rewrite (Hk (set_inbound ((w2 ++ rest) :: more) st) rest more eq_refl).
  reflexivity.
Qed.

Lemma reads_lift {A} (r : res A) (v : A) : r = inr v -> reads (lift r) [] v.
Proof. intros ->. apply reads_ret. Qed.

Lemma reads_recv (bs : list byte) :
  reads (socket_recv (Z.of_nat (length bs))) bs bs.
Proof.
  intros st rest more H. unfold socket_recv.
  destruct (Z.ltb_spec (Z.of_nat (length bs)) 0) as [Hneg|_]; [lia|].
  destruct bs as [|b bs].
  - simpl in *. rewrite <- H, set_inbound_same. reflexivity.
  - destruct (Z.eqb_spec (Z.of_nat (length (b :: bs))) 0) as [Hz|_];
      [simpl in Hz; lia|].
    rewrite H, Nat2Z.id. cbn [app take_delivery].
    change (b :: bs ++ rest) with ((b :: bs) ++ rest).
    rewrite take_app_length, drop_app_length. reflexivity.
Qed.

Lemma sends_ret : sends (ret tt) [].
Proof. intros st. unfold ret. rewrite add_outbound_nil. reflexivity. Qed.

Lemma sends_seq (m k : M unit) w1 w2 :
  sends m w1 -> sends k w2 -> sends (bind m (fun _ => k)) (w1 ++ w2).
Proof.
  intros Hm Hk st. unfold bind. rewrite Hm, Hk, add_outbound_twice.
  reflexivity.
Qed.

Lemma sends_lift_send (r : res (list byte)) (wire : list byte) :
  r = inr wire -> sends (bind (lift r) socket_send) wire.
Proof. intros -> st. reflexivity. Qed.

Lemma sends_for_each {A} (body : A -> M unit) (wire : A -> list byte) xs :
  (forall x, In x xs -> sends (body x) (wire x)) ->
  sends (for_each xs body) (concat (map wire xs)).
Proof.
  induction xs as [|x xs IH]; intros H; simpl.
  - apply sends_ret.
  - apply sends_seq; [apply H; left; reflexivity|].
    apply IH. intros y Hy. apply H. right. exact Hy.
Qed.

Lemma reads_collect {A B} (body : M B) (wire : A -> list byte) (val : A -> B) xs :
  (forall x, In x xs -> reads body (wire x) (val x)) ->
  reads (collect (length xs) body) (concat (map wire xs)) (map val xs).
Proof.
  induction xs as [|x xs IH]; intros H; simpl.
  - apply reads_ret.
  - eapply reads_bind; [apply H; left; reflexivity|].
    rewrite <- (app_nil_r (concat (map wire xs))).
    eapply reads_bind; [apply IH; intros y Hy; apply H; right; exact Hy|].
    apply reads_ret.
Qed.

(** ** The codec, operation by operation *)

Lemma sends_sendByte (b : Z) :
  -128 <= b <= 127 -> sends (sendByte b) [byte_of_Z b].
Proof.
  intros H. apply sends_lift_send. apply (unpack_b_pack_b b H).
Qed.

Lemma reads_readByte (v : Z) :
  -128 <= v <= 127 -> reads readByte [byte_of_Z v] v.
Proof.
  intros H. unfold readByte.
  rewrite <- (app_nil_r [byte_of_Z v]).
  eapply reads_bind; [apply (reads_recv [byte_of_Z v])|].
  apply reads_lift. apply (unpack_b_pack_b v H).
Qed.

Lemma sends_sendInt (c : Z) : int32 c -> sends (sendInt c) (wire_int c).
Proof.
  intros H. apply sends_lift_send. apply (unpack_i_pack_i c H).
Qed.

Lemma reads_readInt (v : Z) : int32 v -> reads readInt (wire_int v) v.
Proof.
  intros H. unfold readInt.
  rewrite <- (app_nil_r (wire_int v)).
  eapply reads_bind; [apply (reads_recv (wire_int v))|].
  apply reads_lift. apply (unpack_i_pack_i v H).
Qed.

Lemma pack_b_s_exact (e : list byte) :
  (length e <= 127)%nat ->
  Struct.pack_b_s (Z.of_nat (length e)) e = inr (wire_string e).
Proof.
  intros H. unfold Struct.pack_b_s.
  destruct (unpack_b_pack_b (Z.of_nat (length e)) ltac:(lia)) as [-> _].
  rewrite Nat2Z.id, firstn_all, Nat.sub_diag. simpl.
  rewrite app_nil_r. reflexivity.
Qed.

Lemma sends_sendString (s : pyval) :
  short s -> sends (sendString s) (wire_string (text s)).
Proof.
  intros (e & He & Hlen) st. unfold sendString, text, bind.
  rewrite He. simpl. rewrite (pack_b_s_exact e Hlen). reflexivity.
Qed.

Lemma reads_readString (e : list byte) :
  (length e <= 127)%nat -> reads readString (wire_string e) (PyBytes e).
Proof.
  intros H. unfold readString, wire_string.
  change (byte_of_Z (Z.of_nat (length e)) :: e)
    with ([byte_of_Z (Z.of_nat (length e))] ++ e).
  eapply reads_bind; [apply reads_readByte; lia|].
  rewrite <- (app_nil_r e) at 2.
  eapply reads_bind; [apply reads_recv|].
  rewrite <- (app_nil_r []).
  eapply reads_bind; [|apply reads_ret].
  apply reads_lift. unfold Struct.unpack_s.
  replace ((0 <=? Z.of_nat (length e)) &&
           (Z.of_nat (length e) =? Z.of_nat (length e))) with true;
    [reflexivity|].
  symmetry. apply andb_true_intro. split; lia.
Qed.

Lemma reads_short_string (s : pyval) :
  short s -> reads readString (wire_string (text s)) (received_string s).
Proof.
  intros (e & He & Hlen). unfold received_string, text. rewrite He.
  apply reads_readString. exact Hlen.
Qed.

(** ** Streams, endpoints and processes on the wire *)

#[local] Arguments wire_int : simpl never.
#[local] Arguments wire_string : simpl never.
#[local] Arguments wire_stream : simpl never.
#[local] Arguments text : simpl never.
#[local] Arguments received_string : simpl never.
#[local] Arguments readByte : simpl never.
#[local] Arguments readInt : simpl never.
#[local] Arguments readString : simpl never.
#[local] Arguments readStreams : simpl never.
#[local] Arguments sendByte : simpl never.
#[local] Arguments sendInt : simpl never.
#[local] Arguments sendString : simpl never.

Lemma sends_send_stream (s : Stream) :
  wf_stream s -> sends (send_stream s) (wire_stream s).
Proof.
  intros [Hn Ht]. apply sends_seq; apply sends_sendString; assumption.
Qed.

Lemma sends_streams (ss : list Stream) :
  wf_streams ss ->
  sends (run! sendInt (Z.of_nat (length ss)) in for_each ss send_stream)
        (wire_int (Z.of_nat (length ss)) ++ concat (map wire_stream ss)).
Proof.
  intros [Hlen Hall]. apply sends_seq; [apply sends_sendInt; exact Hlen|].
  apply sends_for_each. intros s Hs. apply sends_send_stream.
  rewrite Forall_forall in Hall. apply Hall. apply list_elem_of_In. exact Hs.
Qed.

Lemma reads_readStreams (ss : list Stream) :
  wf_streams ss ->
  reads readStreams
        (wire_int (Z.of_nat (length ss)) ++ concat (map wire_stream ss))
        (map received_stream ss).
Proof.
  intros [Hlen Hall]. unfold readStreams.
  eapply reads_bind; [apply reads_readInt; exact Hlen|].
  rewrite Nat2Z.id. apply reads_collect. intros s Hs.
  rewrite Forall_forall in Hall.
  destruct (Hall s ltac:(apply list_elem_of_In; exact Hs)) as [Hn Ht].
  unfold wire_stream.
  eapply reads_bind; [apply reads_short_string; exact Hn|].
  rewrite <- (app_nil_r (wire_string _)).
  eapply reads_bind; [apply reads_short_string; exact Ht|].
  apply reads_ret.
Qed.

(** Unfold the enumeration members so that tests on them compute. *)
Ltac kinds :=
  unfold EndpointKind.TcpSource, EndpointKind.NetMQSource,
    EndpointKind.RemoteExporter, EndpointKind.RemoteClockExporter,
    TransportKind.Tcp, TransportKind.Udp, TransportKind.NamedPipes in *.

Lemma sends_send_endpoint (e : Endpoint) :
  wf_endpoint e -> sends (send_endpoint e) (wire_endpoint e).
Proof.
  intros He. unfold send_endpoint, wire_endpoint.
  change (byte_of_Z (ep_endpoint e) :: ?l) with ([byte_of_Z (ep_endpoint e)] ++ l).
  destruct He as [h p ss Hh Hp Hss | a ss Ha Hss | h p t ss Hh Hp Ht Hss
                 | h p Hh Hp];
    (apply sends_seq; [apply sends_sendByte; simpl; kinds; lia|]);
    (apply sends_seq; [|try (apply sends_streams; exact Hss)]).
  - unfold send_endpoint_fields, wire_fields, wire_host_port. simpl.
    apply (sends_seq _ _ _ _ (sends_sendString h Hh)).
    apply sends_sendInt. exact Hp.
  - unfold send_endpoint_fields, wire_fields. simpl.
    apply sends_sendString. exact Ha.
  - unfold send_endpoint_fields, wire_fields, wire_host_port. simpl.
    rewrite <- app_assoc.
    apply (sends_seq _ _ _ _ (sends_sendString h Hh)).
    apply sends_seq; apply sends_sendInt; [exact Hp|].
    unfold int32. lia.
  - unfold send_endpoint_fields, wire_fields, wire_host_port. simpl.
    apply (sends_seq _ _ _ _ (sends_sendString h Hh)).
    apply sends_sendInt. exact Hp.
  - apply (sends_streams []). split; [unfold int32; simpl; lia|constructor].
Qed.

Lemma reads_readEndpoint (e : Endpoint) :
  wf_endpoint e -> reads readEndpoint (wire_endpoint e) (received_endpoint e).
Proof.
  intros He. unfold readEndpoint, wire_endpoint.
  change (byte_of_Z (ep_endpoint e) :: ?l) with ([byte_of_Z (ep_endpoint e)] ++ l).
  destruct He as [h p ss Hh Hp Hss | a ss Ha Hss | h p t ss Hh Hp Ht Hss
                 | h p Hh Hp];
    (eapply reads_bind; [apply reads_readByte; simpl; kinds; lia|]); cbn; rewrite bind_ret; cbn.
  - unfold wire_fields, wire_host_port. cbn. rewrite <- !app_assoc.
    eapply reads_bind; [apply reads_short_string; exact Hh|].
    eapply reads_bind; [apply reads_readInt; exact Hp|].
    rewrite <- (app_nil_r (_ ++ _)).
    eapply reads_bind; [apply reads_readStreams; exact Hss|].
    apply reads_ret.
  - unfold wire_fields. cbn.
    eapply reads_bind; [apply reads_short_string; exact Ha|].
    rewrite <- (app_nil_r (_ ++ _)).
    eapply reads_bind; [apply reads_readStreams; exact Hss|].
    apply reads_ret.
  - unfold wire_fields, wire_host_port. cbn. rewrite <- !app_assoc.
    eapply reads_bind; [apply reads_short_string; exact Hh|].
    eapply reads_bind; [apply reads_readInt; exact Hp|].
    eapply reads_bind; [apply reads_readInt; unfold int32; lia|].
    unfold TransportKind.of_value.
    replace ((0 <=? t) && (t <=? 2)) with true
      by (symmetry; apply andb_true_intro; split; lia).
    cbn. rewrite bind_ret.
    rewrite <- (app_nil_r (_ ++ _)).
    eapply reads_bind; [apply reads_readStreams; exact Hss|].
    apply reads_ret.
  - unfold wire_fields, wire_host_port. cbn. rewrite <- !app_assoc.
    eapply reads_bind; [apply reads_short_string; exact Hh|].
    eapply reads_bind; [apply reads_readInt; exact Hp|].
    eapply reads_bind; [apply reads_readInt; unfold int32; simpl; lia|].
    apply reads_ret.
Qed.

Lemma sends_send_process (p : Process) :
  wf_process p -> sends (send_process p) (wire_process p).
Proof.
  intros (Hn & Hv & Hlen & Hall). unfold send_process, wire_process.
  apply sends_seq; [apply sends_sendString; exact Hn|].
  apply sends_seq; [apply sends_sendString; exact Hv|].
  apply sends_seq; [apply sends_sendInt; exact Hlen|].
  apply sends_for_each. intros e He. apply sends_send_endpoint.
  rewrite Forall_forall in Hall. apply Hall. apply list_elem_of_In. exact He.
Qed.

Lemma reads_readProcess (p : Process) :
  wf_process p -> reads readProcess (wire_process p) (received_process p).
Proof.
  intros (Hn & Hv & Hlen & Hall). unfold readProcess, wire_process.
  eapply reads_bind; [apply reads_short_string; exact Hn|].
  eapply reads_bind; [apply reads_short_string; exact Hv|].
  eapply reads_bind; [apply reads_readInt; exact Hlen|].
  rewrite Nat2Z.id. rewrite <- (app_nil_r (concat _)).
  eapply reads_bind; [|apply reads_ret].
  apply reads_collect. intros e He. apply reads_readEndpoint.
  rewrite Forall_forall in Hall. apply Hall. apply list_elem_of_In. exact He.
Qed.

Ltac short_text := eexists; split; [reflexivity | simpl; lia].

Lemma wf_camera1 : wf_process camera1.
Proof.
  split; [short_text|]. split; [short_text|].
  split; [unfold int32; simpl; lia|].
  constructor; [|constructor].
  apply wf_TcpSource; [short_text | unfold int32; lia |].
  split; [unfold int32; simpl; lia|].
  constructor; [|constructor]. split; short_text.
Qed.

(** ** Encoding a process and decoding it again *)

(** C1, as stated, fails: the decoded record is not the original.  For the
    process camera1 (a TcpSource endpoint with one stream), addProcess sends
    the tag 1 and the encoding, and __readProcess on that encoding returns
    a record whose string fields are [bytes] objects where the original has
    [str] objects; the two records are different. *)
Lemma roundtrip_not_identical :
  wf_process camera1 /\
  addProcess camera1 (fresh []) =
    (inr tt, add_outbound (x01 :: wire_process camera1) (fresh [])) /\
  (exists p, fst (readProcess (fresh [wire_process camera1])) = inr p /\
             proc_name p = bytes "camera1" /\
             proc_name camera1 = str "camera1" /\
             p <> camera1).
Proof.
  split; [exact wf_camera1|]. split; [vm_compute; reflexivity|].
  exists (received_process camera1).
  split; [vm_compute; reflexivity|].
  split; [vm_compute; reflexivity|].
  split; [reflexivity|]. intros H. vm_compute in H. discriminate H.
Qed.

(** C1, amended: for every process built from the four endpoint
    constructors whose string fields are text of at most 127 encoded bytes
    (with 32-bit ports and counts and a transport among the three kinds),
    addProcess sends the tag 1 followed by an encoding that __readProcess
    decodes, consuming exactly that encoding, to the record that equals the
    original field for field except that every string field holds the raw
    encoded bytes of the original text. *)
Theorem roundtrip_up_to_text_encoding (p : Process) :
  wf_process p ->
  (forall st,
     addProcess p st = (inr tt, add_outbound (x01 :: wire_process p) st)) /\
  (forall st rest more,
     inbound (self st) = (wire_process p ++ rest) :: more ->
     readProcess st = (inr (received_process p), set_inbound (rest :: more) st)).
Proof.
  intros Hp. split.
  - change (x01 :: wire_process p) with ([byte_of_Z 1] ++ wire_process p).
    apply sends_seq; [apply sends_sendByte; lia|].
    apply sends_send_process. exact Hp.
  - apply reads_readProcess. exact Hp.
Qed.

Lemma roundtrip_up_to_text_encoding_witness :
  addProcess camera1 (fresh []) =
    (inr tt, add_outbound (x01 :: wire_process camera1) (fresh [])) /\
  readProcess (fresh [wire_process camera1]) =
    (inr (received_process camera1),
     set_inbound [[]] (fresh [wire_process camera1])).
Proof.
  destruct (roundtrip_up_to_text_encoding camera1 wf_camera1) as [Hs Hr].
  split; [apply Hs|].
  apply (Hr (fresh [wire_process camera1]) [] []).
  vm_compute. reflexivity.
Defined.

(** ** The string boundary *)

Lemma pack_b_s_too_long (e : list byte) :
  (128 <= length e)%nat ->
  Struct.pack_b_s (Z.of_nat (length e)) e = inl StructError.
Proof.
  intros H. unfold Struct.pack_b_s, Struct.pack_b.
  replace ((-128 <=? Z.of_nat (length e)) && (Z.of_nat (length e) <=? 127))
    with false; [reflexivity|].
  symmetry. apply andb_false_intro2. lia.
Qed.

(** ** The encoding keeps the whole text *)

Lemma lor_add_below (hi : Z) (k : nat) :
  forallb (fun x => Z.lor hi x =? hi + x) (map Z.of_nat (seq 0 k)) = true ->
  forall x, 0 <= x < Z.of_nat k -> Z.lor hi x = hi + x.
Proof.
  intros H x Hx. rewrite forallb_forall in H. apply Z.eqb_eq, H.
  apply in_map_iff. exists (Z.to_nat x). split; [lia|]. apply in_seq. lia.
Qed.

Lemma lor_128 (x : Z) : 0 <= x < 64 -> Z.lor 128 x = 128 + x.
Proof. apply (lor_add_below 128 64). vm_compute. reflexivity. Qed.

Lemma lor_192 (x : Z) : 0 <= x < 32 -> Z.lor 192 x = 192 + x.
Proof. apply (lor_add_below 192 32). vm_compute. reflexivity. Qed.

Lemma lor_224 (x : Z) : 0 <= x < 16 -> Z.lor 224 x = 224 + x.
Proof. apply (lor_add_below 224 16). vm_compute. reflexivity. Qed.

Lemma lor_240 (x : Z) : 0 <= x < 8 -> Z.lor 240 x = 240 + x.
Proof. apply (lor_add_below 240 8). vm_compute. reflexivity. Qed.

Lemma land_63 (c : Z) : Z.land c 63 = c mod 64.
Proof. change 63 with (Z.ones 6). rewrite Z.land_ones by lia. reflexivity. Qed.

Lemma continuation (c : Z) : Z.lor 128 (Z.land c 63) = 128 + c mod 64.
Proof.
  rewrite land_63. apply lor_128. apply Z.mod_pos_bound. lia.
Qed.

(** The bytes of one code point, in arithmetic: the lead byte tells the
    length, and the value is spread over the lead byte and the
    continuation bytes, six bits each. *)
Lemma utf8_char_bytes (c : Z) (bs : list byte) :
  utf8_char c = inr bs ->
  (0 <= c < 128 /\ bs = [byte_of_Z c]) \/
  (128 <= c < 2048 /\
   bs = [byte_of_Z (192 + c / 64); byte_of_Z (128 + c mod 64)]) \/
  (2048 <= c < 65536 /\
   bs = [byte_of_Z (224 + c / 4096); byte_of_Z (128 + (c / 64) mod 64);
         byte_of_Z (128 + c mod 64)]) \/
  (65536 <= c < 1114112 /\
   bs = [byte_of_Z (240 + c / 262144); byte_of_Z (128 + (c / 4096) mod 64);
         byte_of_Z (128 + (c / 64) mod 64); byte_of_Z (128 + c mod 64)]).
Proof.
  unfold utf8_char.
  destruct (Z.ltb_spec c 0); [intros H'; discriminate H'|].
  destruct (Z.ltb_spec c 128).
  { intros H'. injection H' as <-. left. split; [lia|reflexivity]. }
  rewrite !continuation, !Z.shiftr_div_pow2 by lia.
  change (2 ^ 6) with 64. change (2 ^ 12) with 4096.
  change (2 ^ 18) with 262144.
  destruct (Z.ltb_spec c 2048).
  { intros H'. injection H' as <-. right. left. split; [lia|].
    rewrite lor_192 by (Z.div_mod_to_equations; lia). reflexivity. }
  destruct (Z.ltb_spec c 65536).
  { destruct ((55296 <=? c) && (c <=? 57343)); [intros H'; discriminate H'|].
    intros H'. injection H' as <-. right. right. left. split; [lia|].
    rewrite lor_224 by (Z.div_mod_to_equations; lia). reflexivity. }
  destruct (Z.ltb_spec c 1114112); [|intros H'; discriminate H'].
  intros H'. injection H' as <-. right. right. right. split; [lia|].
  rewrite lor_240 by (Z.div_mod_to_equations; lia). reflexivity.
Qed.

Lemma byte_of_Z_inj (x y : Z) :
  0 <= x < 256 -> 0 <= y < 256 -> byte_of_Z x = byte_of_Z y -> x = y.
Proof.
  intros Hx Hy H. apply (f_equal Z_of_byte) in H.
  rewrite !Z_of_byte_of_Z, !Z.mod_small in H by assumption. exact H.
Qed.

Lemma cons_eq_parts {A} (x y : A) (l l' : list A) :
  x :: l = y :: l' -> x = y /\ l = l'.
Proof. intros H. injection H as -> ->. split; reflexivity. Qed.

(** No encoding of a code point is the beginning of another's. *)
Lemma utf8_char_prefix (c1 c2 : Z) (b1 b2 r1 r2 : list byte) :
  utf8_char c1 = inr b1 -> utf8_char c2 = inr b2 ->
  b1 ++ r1 = b2 ++ r2 -> c1 = c2 /\ r1 = r2.
Proof.
  intros H1 H2 H.
  assert (D1 : forall c, c / 4096 = c / 64 / 64)
    by (intros c; rewrite Z.div_div by lia; reflexivity).
  assert (D2 : forall c, c / 262144 = c / 64 / 64 / 64)
    by (intros c; rewrite !Z.div_div by lia; reflexivity).
  destruct (utf8_char_bytes _ _ H1) as [[R1 ->]|[[R1 ->]|[[R1 ->]|[R1 ->]]]];
  destruct (utf8_char_bytes _ _ H2) as [[R2 ->]|[[R2 ->]|[[R2 ->]|[R2 ->]]]];
  clear H1 H2; cbn [app] in H; rewrite ?D1, ?D2 in H; clear D1 D2;
  repeat match type of H with
         | _ :: _ = _ :: _ =>
             let E := fresh "E" in
             apply cons_eq_parts in H; destruct H as [E H];
             apply byte_of_Z_inj in E;
             [|Z.div_mod_to_equations; lia ..]
         end;
  first [ exfalso; Z.div_mod_to_equations; lia
        | split; [Z.div_mod_to_equations; lia | exact H] ].
Qed.

Lemma utf8_char_nonempty (c : Z) (bs : list byte) :
  utf8_char c = inr bs -> bs <> [].
Proof.
  intros H.
  destruct (utf8_char_bytes _ _ H) as [[_ ->]|[[_ ->]|[[_ ->]|[_ ->]]]];
    discriminate.
Qed.

Lemma utf8_cons (c : N) (s : list N) (e : list byte) :
  utf8 (c :: s) = inr e ->
  exists bs rest,
    utf8_char (Z.of_N c) = inr bs /\ utf8 s = inr rest /\ e = bs ++ rest.
Proof.
  cbn [utf8]. destruct (utf8_char (Z.of_N c)) as [x|bs]; [discriminate|].
  destruct (utf8 s) as [x|rest]; [discriminate|].
  intros H. injection H as <-. exists bs, rest. repeat split.
Qed.

(** The encoding loses nothing of the text: two texts with the same
    encoding are the same text. *)
Lemma utf8_inj (s1 s2 : list N) (e : list byte) :
  utf8 s1 = inr e -> utf8 s2 = inr e -> s1 = s2.
Proof.
  revert s2 e. induction s1 as [|c1 s1 IH]; intros s2 e H1 H2.
  - injection H1 as <-. destruct s2 as [|c2 s2]; [reflexivity|].
    destruct (utf8_cons _ _ _ H2) as (bs & rest & Hc & _ & E).
    apply utf8_char_nonempty in Hc. destruct bs; [contradiction|discriminate].
  - destruct (utf8_cons _ _ _ H1) as (b1 & r1 & Hc1 & Hr1 & ->).
    destruct s2 as [|c2 s2].
    { injection H2 as E. apply utf8_char_nonempty in Hc1.
      destruct b1; [contradiction|discriminate]. }
    destruct (utf8_cons _ _ _ H2) as (b2 & r2 & Hc2 & Hr2 & E).
    destruct (utf8_char_prefix _ _ _ _ _ _ Hc1 Hc2 E) as [Ec Er].
    apply N2Z.inj in Ec. subst c2 r2. f_equal. exact (IH s2 r1 Hr1 Hr2).
Qed.

(** C8, as stated, fails: the text "abc" is sent whole, yet what
    __readString gives back for it is the bytes object b'abc', which is
    not the string that was sent. *)
Lemma text_comes_back_as_bytes :
  sendString (str "abc") (fresh []) =
    (inr tt, add_outbound [x03; "a"; "b"; "c"]%byte (fresh [])) /\
  fst (readString (fresh [[x03; "a"; "b"; "c"]%byte])) = inr (bytes "abc") /\
  bytes "abc" <> str "abc".
Proof.
  split; [reflexivity|]. split; [reflexivity|]. discriminate.
Qed.

(** C8, amended: for a text [s] with UTF-8 encoding [e], no other text has
    that encoding.  When [e] has at most 127 bytes (127 included),
    __sendString sends the length byte followed by all of [e], and
    __readString gives back exactly the bytes [e], as a bytes object and
    not the string [s].  When [e] has 128 bytes or more, __sendString
    raises struct.error with nothing sent.  In neither case is a shortened
    string put on the wire. *)
Theorem sendString_sends_whole_encoding (s : list N) (e : list byte) :
  utf8 s = inr e ->
  (forall s', utf8 s' = inr e -> s' = s) /\
  ((length e <= 127)%nat ->
     (forall st,
        sendString (PyStr s) st =
          (inr tt,
           add_outbound (byte_of_Z (Z.of_nat (length e)) :: e) st)) /\
     (forall st rest more,
        inbound (self st) =
          ((byte_of_Z (Z.of_nat (length e)) :: e) ++ rest) :: more ->
        readString st = (inr (PyBytes e), set_inbound (rest :: more) st) /\
        PyBytes e <> PyStr s)) /\
  ((128 <= length e)%nat ->
     forall st, sendString (PyStr s) st = (inl StructError, st)).
Proof.
  intros He. split; [|split].
  - intros s' He'. exact (utf8_inj s' s e He' He).
  - intros Hlen. split.
    + assert (Hs : short (PyStr s)) by (exists e; split; assumption).
      pose proof (sends_sendString (PyStr s) Hs) as H.
      unfold text in H. simpl in H. rewrite He in H. exact H.
    + intros st rest more Hin. split; [|discriminate].
      apply reads_readString; assumption.
  - intros Hlen st. unfold sendString, bind. simpl. rewrite He. simpl.
    rewrite (pack_b_s_too_long e Hlen). reflexivity.
Qed.

Lemma sendString_sends_whole_encoding_witness :
  sendString (PyStr (repeat 233%N 63 ++ [65%N])) (fresh []) =
    (inr tt,
     add_outbound (x7f :: concat (repeat [xc3; xa9] 63) ++ ["A"%byte])
       (fresh [])) /\
  sendString (PyStr (repeat 233%N 64)) (fresh []) =
    (inl StructError, fresh []).
Proof.
  split.
  - destruct (sendString_sends_whole_encoding
                (repeat 233%N 63 ++ [65%N])
                (concat (repeat [xc3; xa9] 63) ++ ["A"%byte])
                ltac:(vm_compute; reflexivity)) as (_ & H & _).
    destruct (H ltac:(vm_compute; lia)) as [Hs _]. exact (Hs (fresh [])).
  - destruct (sendString_sends_whole_encoding
                (repeat 233%N 64) (concat (repeat [xc3; xa9] 64))
                ltac:(vm_compute; reflexivity)) as (_ & _ & H).
    apply H. vm_compute. lia.
Defined.

(** ** Reads and the way the transport delivers the bytes *)

Lemma take_delivery_prefix (k : nat) (cs : list (list byte)) :
  concat cs = fst (take_delivery k cs) ++ concat (snd (take_delivery k cs)) /\
  (length (fst (take_delivery k cs)) <= k)%nat.
Proof.
  induction cs as [|c cs IH]; [simpl; split; [reflexivity|lia]|].
  destruct c as [|b c]; [exact IH|].
  cbn [take_delivery fst snd concat]. split.
  - rewrite app_assoc, take_drop. reflexivity.
  - rewrite length_take. lia.
Qed.

Lemma take_delivery_one (cs : list (list byte)) :
  fst (take_delivery 1 cs) = take 1 (concat cs).
Proof.
  induction cs as [|c cs IH]; [reflexivity|].
  destruct c as [|b c]; [exact IH|]. reflexivity.
Qed.

Lemma socket_recv_inv (n : Z) (st : State) :
  0 < n ->
  exists data st',
    socket_recv n st = (inr data, st') /\
    stream st = data ++ stream st' /\
    (length data <= Z.to_nat n)%nat /\
    data = fst (take_delivery (Z.to_nat n) (inbound (self st))).
Proof.
  intros Hn. unfold socket_recv.
  destruct (Z.ltb_spec n 0); [lia|]. destruct (Z.eqb_spec n 0); [lia|].
  pose proof (take_delivery_prefix (Z.to_nat n) (inbound (self st))) as [Hc Hl].
  destruct (take_delivery (Z.to_nat n) (inbound (self st))) as [data cs].
  exists data, (set_inbound cs st). repeat split; assumption.
Qed.

Lemma readByte_stream (st : State) :
  fst (readByte st) =
    match stream st with
    | [] => inl StructError
    | b :: _ => inr (Struct.signed 8 (Z_of_byte b))
    end.
Proof.
  unfold readByte, bind.
  destruct (socket_recv_inv 1 st ltac:(lia)) as (data & st' & -> & Hs & Hl & Hd).
  rewrite take_delivery_one in Hd. fold (stream st) in Hd. subst data.
  destruct (stream st) as [|b s]; reflexivity.
Qed.

Lemma readByte_inv (st st' : State) (v : Z) :
  readByte st = (inr v, st') ->
  exists b, stream st = b :: stream st' /\ v = Struct.signed 8 (Z_of_byte b).
Proof.
  unfold readByte, bind.
  destruct (socket_recv_inv 1 st ltac:(lia)) as (data & st1 & -> & Hs & Hl & _).
  destruct data as [|b [|b' data]]; simpl; intros H; try discriminate H.
  injection H as <- <-. exists b. split; [exact Hs|reflexivity].
Qed.

Lemma readInt_inv (st st' : State) (v : Z) :
  readInt st = (inr v, st') ->
  exists buf, length buf = 4%nat /\ stream st = buf ++ stream st' /\
              v = Struct.signed 32 (Struct.le_value buf).
Proof.
  unfold readInt, bind.
  destruct (socket_recv_inv 4 st ltac:(lia)) as (data & st1 & -> & Hs & Hl & _).
  unfold Struct.unpack_i.
  destruct (Nat.eqb_spec (length data) 4) as [E|E]; simpl; intros H;
    [|discriminate H].
  injection H as <- <-. exists data. repeat split; assumption.
Qed.

Lemma readString_inv (st st' : State) (v : pyval) :
  readString st = (inr v, st') ->
  exists b buf,
    stream st = b :: buf ++ stream st' /\
    Z.of_nat (length buf) = Struct.signed 8 (Z_of_byte b) /\
    v = PyBytes buf.
Proof.
  unfold readString. unfold bind at 1.
  destruct (readByte st) as [[e|len] st1] eqn:Eb; [intros H; discriminate H|].
  destruct (readByte_inv _ _ _ Eb) as (b & Hs & ->).
  set (len := Struct.signed 8 (Z_of_byte b)) in *.
  unfold bind, socket_recv.
  destruct (Z.ltb_spec len 0) as [Hneg|Hpos]; [intros H; discriminate H|].
  destruct (Z.eqb_spec len 0) as [Hz|Hnz].
  - rewrite Hz. simpl. intros H. injection H as <- <-.
    exists b, []. split; [exact Hs|]. split; [|reflexivity].
    change (Struct.signed 8 (Z_of_byte b)) with len. rewrite Hz. reflexivity.
  - pose proof (take_delivery_prefix (Z.to_nat len) (inbound (self st1)))
      as [Hc _].
    destruct (take_delivery (Z.to_nat len) (inbound (self st1))) as [data cs].
    unfold Struct.unpack_s.
    destruct (Z.leb_spec 0 len); [|lia]. simpl.
    destruct (Z.eqb_spec (Z.of_nat (length data)) len) as [E|E]; simpl;
      intros Hr; [|discriminate Hr].
    injection Hr as <- <-. exists b, data.
    split; [|split; [exact E|reflexivity]].
    rewrite Hs. f_equal. exact Hc.
Qed.

Lemma readProtocolVersion_inv (st : State) :
  fst (readProtocolVersion st) <> inl StructError ->
  exists buf, length buf = 2%nat /\ take 2 (stream st) = buf /\
    fst (readProtocolVersion st) =
      if Struct.signed 16 (Struct.le_value buf) =? PROTOCOL_VERSION
      then inr tt
      else inl (PyException "RendezvousClient protocol mismatch 2").
Proof.
  unfold readProtocolVersion, bind.
  destruct (socket_recv_inv 2 st ltac:(lia)) as (data & st1 & -> & Hs & Hl & _).
  unfold Struct.unpack_h.
  destruct (Nat.eqb_spec (length data) 2) as [E|E]; simpl;
    [|intros H; contradiction H; reflexivity].
  intros _. exists data. split; [exact E|]. split.
  - rewrite Hs, <- E. apply take_app_length.
  - destruct (Struct.signed 16 (Struct.le_value data) =? PROTOCOL_VERSION);
      reflexivity.
Qed.

(** What a short delivery does to a multi-byte read. *)
Lemma recv_short (n : Z) (st : State) b c more :
  inbound (self st) = (b :: c) :: more ->
  (Z.of_nat (length (b :: c)) < n) ->
  socket_recv n st = (inr (b :: c), set_inbound ([] :: more) st).
Proof.
  intros Hin Hlt. unfold socket_recv.
  destruct (Z.ltb_spec n 0); [simpl in Hlt; lia|].
  destruct (Z.eqb_spec n 0); [simpl in Hlt; lia|].
  rewrite Hin. cbn [take_delivery].
  rewrite take_ge, drop_ge by lia. reflexivity.
Qed.

Lemma readByte_head (st : State) b c more :
  inbound (self st) = (b :: c) :: more ->
  readByte st = (inr (Struct.signed 8 (Z_of_byte b)), set_inbound (c :: more) st).
Proof.
  intros Hin. unfold readByte, bind, socket_recv. simpl. rewrite Hin.
  simpl. rewrite drop_0. reflexivity.
Qed.

Lemma take_delivery_first (k : nat) (cs : list (list byte)) :
  fst (take_delivery k cs) = take k (first_delivery cs).
Proof.
  induction cs as [|c cs IH]; [destruct k; reflexivity|].
  destruct c as [|b c]; [exact IH|]. reflexivity.
Qed.

(** A [recv] that finds fewer bytes than asked for in the delivery it
    reads from returns just those. *)
Lemma recv_first_delivery (n : Z) (st : State) :
  0 < n ->
  exists st',
    socket_recv n st =
      (inr (take (Z.to_nat n) (first_delivery (inbound (self st)))), st').
Proof.
  intros Hn.
  destruct (socket_recv_inv n st Hn) as (data & st' & E & _ & _ & ->).
  exists st'. rewrite E, take_delivery_first. reflexivity.
Qed.

(** C9, as stated, fails: the same four bytes give the value 1 when they
    arrive in one delivery, and make __readInt raise struct.error when the
    first delivery holds only the first of them: the one recv returns that
    single byte and no further recv is made. *)
Lemma readInt_depends_on_delivery :
  stream (fresh [[x01]; [x00; x00; x00]]) =
    stream (fresh [[x01; x00; x00; x00]]) /\
  fst (readInt (fresh [[x01; x00; x00; x00]])) = inr 1 /\
  fst (readInt (fresh [[x01]; [x00; x00; x00]])) = inl StructError.
Proof. repeat split. Qed.

(** C9, amended: __readByte gives the same result on any two receive
    buffers that hold the same byte stream.  For __readInt, __readString
    and the 16-bit version read, a value that is returned depends only on
    the byte stream, but a short read is not completed: when the delivery
    a read takes its bytes from (the first one in the buffer that is not
    empty) holds fewer bytes than asked for, the read raises struct.error,
    whatever later deliveries hold.  For __readInt and the version read
    that is fewer than 4, respectively 2, bytes.  __readString, once it
    has read a length byte [n > 0] at the head of the buffer, takes the
    content from what is left of that delivery or, when nothing is left of
    it, from the next delivery that is not empty: it returns the first [n]
    bytes found there, and raises struct.error when there are fewer. *)
Theorem reads_follow_the_stream (st1 st2 : State) :
  stream st1 = stream st2 ->
  fst (readByte st1) = fst (readByte st2) /\
  (forall v1 v2,
     fst (readInt st1) = inr v1 -> fst (readInt st2) = inr v2 -> v1 = v2) /\
  (forall v1 v2,
     fst (readString st1) = inr v1 -> fst (readString st2) = inr v2 ->
     v1 = v2) /\
  (fst (readProtocolVersion st1) <> inl StructError ->
   fst (readProtocolVersion st2) <> inl StructError ->
   fst (readProtocolVersion st1) = fst (readProtocolVersion st2)) /\
  (forall b c more,
     inbound (self st1) = (b :: c) :: more ->
     ((length (b :: c) < 4)%nat ->
      readInt st1 = (inl StructError, set_inbound ([] :: more) st1)) /\
     ((length (b :: c) < 2)%nat ->
      readProtocolVersion st1 =
        (inl StructError, set_inbound ([] :: more) st1)) /\
     (c <> [] -> Z.of_nat (length c) < Struct.signed 8 (Z_of_byte b) ->
      readString st1 = (inl StructError, set_inbound ([] :: more) st1))) /\
  ((length (first_delivery (inbound (self st1))) < 4)%nat ->
   fst (readInt st1) = inl StructError) /\
  ((length (first_delivery (inbound (self st1))) < 2)%nat ->
   fst (readProtocolVersion st1) = inl StructError) /\
  (forall b c more,
     inbound (self st1) = (b :: c) :: more ->
     0 < Struct.signed 8 (Z_of_byte b) ->
     fst (readString st1) =
       if Z.of_nat (length (first_delivery (c :: more)))
            <? Struct.signed 8 (Z_of_byte b)
       then inl StructError
       else inr (PyBytes (take (Z.to_nat (Struct.signed 8 (Z_of_byte b)))
                               (first_delivery (c :: more))))).
Proof.
  intros Hs. split; [|split; [|split; [|split; [|split; [|split; [|split]]]]]].
  - rewrite !readByte_stream, Hs. reflexivity.
  - intros v1 v2 H1 H2.
    destruct (readInt st1) as [r1 s1] eqn:E1.
    destruct (readInt st2) as [r2 s2] eqn:E2. simpl in H1, H2. subst r1 r2.
    destruct (readInt_inv _ _ _ E1) as (b1 & L1 & S1 & ->).
    destruct (readInt_inv _ _ _ E2) as (b2 & L2 & S2 & ->).
    rewrite Hs, S2 in S1.
    destruct (app_inj_1 b2 b1 (stream s2) (stream s1) ltac:(lia) S1) as [-> _].
    reflexivity.
  - intros v1 v2 H1 H2.
    destruct (readString st1) as [r1 s1] eqn:E1.
    destruct (readString st2) as [r2 s2] eqn:E2. simpl in H1, H2. subst r1 r2.
    destruct (readString_inv _ _ _ E1) as (b1 & u1 & S1 & L1 & ->).
    destruct (readString_inv _ _ _ E2) as (b2 & u2 & S2 & L2 & ->).
    rewrite Hs, S2 in S1. injection S1 as -> S1.
    destruct (app_inj_1 u2 u1 (stream s2) (stream s1) ltac:(lia) S1) as [-> _].
    reflexivity.
  - intros N1 N2.
    destruct (readProtocolVersion_inv st1 N1) as (b1 & _ & T1 & ->).
    destruct (readProtocolVersion_inv st2 N2) as (b2 & _ & T2 & ->).
    rewrite Hs, T2 in T1. subst b2. reflexivity.
  - intros b c more Hin. split; [|split].
    + intros Hlen. unfold readInt, bind.
      rewrite (recv_short 4 st1 b c more Hin) by lia.
      unfold Struct.unpack_i.
      destruct (Nat.eqb_spec (length (b :: c)) 4); [lia|reflexivity].
    + intros Hlen. unfold readProtocolVersion, bind.
      rewrite (recv_short 2 st1 b c more Hin) by lia.
      unfold Struct.unpack_h.
      destruct (Nat.eqb_spec (length (b :: c)) 2); [lia|reflexivity].
    + intros Hc Hlen. unfold readString. unfold bind at 1.
      rewrite (readByte_head st1 b c more Hin).
      destruct c as [|c0 c]; [contradiction Hc; reflexivity|].
      unfold bind.
      rewrite (recv_short _ (set_inbound ((c0 :: c) :: more) st1) c0 c more
                 eq_refl Hlen).
      unfold Struct.unpack_s.
      destruct (Z.eqb_spec (Z.of_nat (length (c0 :: c)))
                           (Struct.signed 8 (Z_of_byte b))); [lia|].
      rewrite andb_false_r. reflexivity.
  - intros Hlen. unfold readInt, bind.
    destruct (recv_first_delivery 4 st1 ltac:(lia)) as (st' & ->).
    unfold Struct.unpack_i.
    destruct (Nat.eqb_spec
                (length (take (Z.to_nat 4) (first_delivery (inbound (self st1)))))
                4) as [E|E]; [|reflexivity].
    rewrite length_take in E. lia.
  - intros Hlen. unfold readProtocolVersion, bind.
    destruct (recv_first_delivery 2 st1 ltac:(lia)) as (st' & ->).
    unfold Struct.unpack_h.
    destruct (Nat.eqb_spec
                (length (take (Z.to_nat 2) (first_delivery (inbound (self st1)))))
                2) as [E|E]; [|reflexivity].
    rewrite length_take in E. lia.
  - intros b c more Hin Hn. unfold readString. unfold bind at 1.
    rewrite (readByte_head st1 b c more Hin).
    set (n := Struct.signed 8 (Z_of_byte b)) in *. unfold bind.
    destruct (recv_first_delivery n (set_inbound (c :: more) st1) Hn)
      as (st' & ->).
    change (inbound (self (set_inbound (c :: more) st1))) with (c :: more).
    set (d := first_delivery (c :: more)).
    unfold Struct.unpack_s. rewrite length_take.
    destruct (Z.leb_spec 0 n); [|lia].
    destruct (Z.ltb_spec (Z.of_nat (length d)) n).
    + destruct (Z.eqb_spec (Z.of_nat (Z.to_nat n `min` length d)) n); [lia|].
      reflexivity.
    + destruct (Z.eqb_spec (Z.of_nat (Z.to_nat n `min` length d)) n); [|lia].
      reflexivity.
Qed.

Lemma reads_follow_the_stream_witness :
  fst (readByte (fresh [[x01]; [x00; x00; x00]])) =
    fst (readByte (fresh [[x01; x00; x00; x00]])) /\
  fst (readString (fresh [[x01]; ["a"%byte]])) = inr (bytes "a") /\
  fst (readString (fresh [[x02; "a"%byte]; ["b"%byte]])) = inl StructError.
Proof.
  split; [|split].
  - apply (reads_follow_the_stream (fresh [[x01]; [x00; x00; x00]])
             (fresh [[x01; x00; x00; x00]])).
    reflexivity.
  - destruct (reads_follow_the_stream (fresh [[x01]; ["a"%byte]])
                (fresh [[x01]; ["a"%byte]]) eq_refl)
      as (_ & _ & _ & _ & _ & _ & _ & H).
    apply (H x01 [] [["a"%byte]]); [reflexivity|vm_compute; reflexivity].
  - destruct (reads_follow_the_stream (fresh [[x02; "a"%byte]; ["b"%byte]])
                (fresh [[x02; "a"%byte]; ["b"%byte]]) eq_refl)
      as (_ & _ & _ & _ & _ & _ & _ & H).
    apply (H x02 ["a"%byte] [["b"%byte]]); [reflexivity|vm_compute; reflexivity].
Defined.

(** ** Decoders only read, encoders only send *)

Lemma only_reads_ret {A} (a : A) : only_reads (ret a).
Proof. intros st. simpl. rewrite set_inbound_same. reflexivity. Qed.

Lemma only_reads_raise {A} (e : exn) : only_reads (@raise A e).
Proof. intros st. simpl. rewrite set_inbound_same. reflexivity. Qed.

Lemma only_reads_lift {A} (r : res A) : only_reads (lift r).
Proof. destruct r; [apply only_reads_raise | apply only_reads_ret]. Qed.

Lemma only_reads_bind {A B} (m : M A) (k : A -> M B) :
  only_reads m -> (forall a, only_reads (k a)) -> only_reads (bind m k).
Proof.
  intros Hm Hk st. unfold bind. specialize (Hm st).
  destruct (m st) as [[e|a] st1]; simpl in *; [exact Hm|].
  rewrite (Hk a st1). rewrite Hm at 2. reflexivity.
Qed.

Lemma only_reads_recv (n : Z) : only_reads (socket_recv n).
Proof.
  intros st. unfold socket_recv.
  destruct (n <? 0); [simpl; rewrite set_inbound_same; reflexivity|].
  destruct (n =? 0); [simpl; rewrite set_inbound_same; reflexivity|].
  destruct (take_delivery (Z.to_nat n) (inbound (self st))). reflexivity.
Qed.

Lemma only_reads_collect {A} (n : nat) (body : M A) :
  only_reads body -> only_reads (collect n body).
Proof.
  intros Hb. induction n as [|n IH]; simpl; [apply only_reads_ret|].
  apply only_reads_bind; [exact Hb|]. intros x.
  apply only_reads_bind; [exact IH|]. intros xs. apply only_reads_ret.
Qed.

Create HintDb io discriminated.
#[local] Hint Resolve only_reads_ret only_reads_raise only_reads_lift
  only_reads_recv only_reads_collect : io.

Ltac io_step :=
  first [ solve [auto with io]
        | apply only_reads_collect
        | apply only_reads_bind; [|intros ?]
        | match goal with
          | |- only_reads (if ?c then _ else _) => destruct c
          end ].

Lemma only_reads_readByte : only_reads readByte.
Proof. unfold readByte. repeat io_step. Qed.

Lemma only_reads_readInt : only_reads readInt.
Proof. unfold readInt. repeat io_step. Qed.

#[local] Hint Resolve only_reads_readByte only_reads_readInt : io.

Lemma only_reads_readString : only_reads readString.
Proof. unfold readString. repeat io_step. Qed.

#[local] Hint Resolve only_reads_readString : io.

Lemma only_reads_readStreams : only_reads readStreams.
Proof.
  unfold readStreams. apply only_reads_bind; [auto with io|]. intros count.
  apply only_reads_collect. repeat io_step.
Qed.

#[local] Hint Resolve only_reads_readStreams : io.

Lemma only_reads_readEndpoint : only_reads readEndpoint.
Proof. unfold readEndpoint. repeat io_step. Qed.

#[local] Hint Resolve only_reads_readEndpoint : io.

Lemma only_reads_readProcess : only_reads readProcess.
Proof. unfold readProcess. repeat io_step. Qed.

Lemma only_sends_ret {A} (a : A) : only_sends (ret a).
Proof. intros st. exists []. simpl. rewrite add_outbound_nil. reflexivity. Qed.

Lemma only_sends_raise {A} (e : exn) : only_sends (@raise A e).
Proof. intros st. exists []. simpl. rewrite add_outbound_nil. reflexivity. Qed.

Lemma only_sends_lift {A} (r : res A) : only_sends (lift r).
Proof. destruct r; [apply only_sends_raise | apply only_sends_ret]. Qed.

Lemma only_sends_item {A} (field : option A) : only_sends (item field).
Proof. destruct field; [apply only_sends_ret | apply only_sends_raise]. Qed.

Lemma only_sends_send (data : list byte) : only_sends (socket_send data).
Proof. intros st. exists data. reflexivity. Qed.

Lemma only_sends_bind {A B} (m : M A) (k : A -> M B) :
  only_sends m -> (forall a, only_sends (k a)) -> only_sends (bind m k).
Proof.
  intros Hm Hk st. unfold bind. destruct (Hm st) as [d1 H1].
  destruct (m st) as [[e|a] st1]; simpl in *; [exists d1; exact H1|].
  destruct (Hk a st1) as [d2 H2]. exists (d1 ++ d2).
  rewrite H2, H1, add_outbound_twice. reflexivity.
Qed.

Lemma only_sends_for_each {A} (xs : list A) (body : A -> M unit) :
  (forall x, only_sends (body x)) -> only_sends (for_each xs body).
Proof.
  intros Hb. induction xs as [|x xs IH]; simpl; [apply only_sends_ret|].
  apply only_sends_bind; [apply Hb|]. intros _. exact IH.
Qed.

#[local] Hint Resolve only_sends_ret only_sends_raise only_sends_lift
  only_sends_item only_sends_send : io.

Ltac out_step :=
  first [ solve [auto with io]
        | apply only_sends_for_each; intros ?
        | apply only_sends_bind; [|intros ?]
        | match goal with
          | |- only_sends (if ?c then _ else _) => destruct c
          end ].

Lemma only_sends_sendByte (b : Z) : only_sends (sendByte b).
Proof. unfold sendByte. repeat out_step. Qed.

Lemma only_sends_sendInt (c : Z) : only_sends (sendInt c).
Proof. unfold sendInt. repeat out_step. Qed.

Lemma only_sends_sendString (s : pyval) : only_sends (sendString s).
Proof. unfold sendString. repeat out_step. Qed.

#[local] Hint Resolve only_sends_sendByte only_sends_sendInt
  only_sends_sendString : io.

Lemma only_sends_send_endpoint (e : Endpoint) : only_sends (send_endpoint e).
Proof.
  unfold send_endpoint, send_endpoint_fields, send_stream. repeat out_step.
Qed.

#[local] Hint Resolve only_sends_send_endpoint : io.

Lemma only_sends_addProcess (p : Process) : only_sends (addProcess p).
Proof. unfold addProcess, send_process. repeat out_step. Qed.

Lemma only_sends_removeProcess (p : Process) : only_sends (removeProcess p).
Proof. unfold removeProcess. repeat out_step. Qed.

(** C6: addProcess and removeProcess leave the rendezvous table as it was,
    for every table and every process argument, whether they return or
    raise: all either of them does to the state is append bytes to what
    the socket has sent. *)
Theorem advertise_withdraw_leave_table (p : Process) (st : State) :
  (exists data, snd (addProcess p st) = add_outbound data st) /\
  (exists data, snd (removeProcess p st) = add_outbound data st) /\
  rendezvous (snd (addProcess p st)) = rendezvous st /\
  rendezvous (snd (removeProcess p st)) = rendezvous st.
Proof.
  destruct (only_sends_addProcess p st) as [d1 H1].
  destruct (only_sends_removeProcess p st) as [d2 H2].
  split; [exists d1; exact H1|]. split; [exists d2; exact H2|].
  rewrite H1, H2. split; reflexivity.
Qed.

(** ** The update listener *)

Lemma set_inbound_chain (st st1 st2 : State) a b :
  st1 = set_inbound a st -> st2 = set_inbound b st1 ->
  st2 = set_inbound (inbound (self st2)) st.
Proof. intros -> ->. reflexivity. Qed.

(** An update that raises has changed neither the table nor the callback
    log: only bytes have been taken off the socket. *)
Lemma readProcessUpdate_raises (st st' : State) (e : exn) :
  readProcessUpdate st = (inl e, st') ->
  st' = set_inbound (inbound (self st')) st.
Proof.
  unfold readProcessUpdate. unfold bind at 1.
  pose proof (only_reads_readByte st) as Hb.
  destruct (readByte st) as [[e0|update] st1]; simpl in Hb.
  { intros H. injection H as <- <-. exact Hb. }
  destruct (update =? 0); [intros H; discriminate H|].
  destruct (update =? 1).
  { unfold bind at 1. pose proof (only_reads_readProcess st1) as Hp.
    destruct (readProcess st1) as [[e1|p] st2]; simpl in Hp.
    - intros H. injection H as <- <-. exact (set_inbound_chain _ _ _ _ _ Hb Hp).
    - unfold bind, rendezvous_setitem, invoke. simpl.
      destruct (onProcessAdded (self st2)); intros H; discriminate H. }
  destruct (update =? 2).
  { unfold bind at 1. pose proof (only_reads_readString st1) as Hp.
    destruct (readString st1) as [[e1|name] st2]; simpl in Hp.
    - intros H. injection H as <- <-. exact (set_inbound_chain _ _ _ _ _ Hb Hp).
    - unfold bind, rendezvous_pop, invoke.
      destruct (rendezvous st2 !! name) as [p|].
      + simpl. destruct (onProcessRemoved (self st2)); intros H; discriminate H.
      + intros H. injection H as <- <-.
        exact (set_inbound_chain _ _ _ _ _ Hb Hp). }
  intros H. injection H as <- <-. exact Hb.
Qed.

(** An update that raises is the last one: the loop ends in the state the
    exception left, whatever the socket still holds. *)
Lemma listener_stops (st st' : State) (e : exn) :
  readProcessUpdate st = (inl e, st') ->
  (forall fuel, readProcessUpdates_loop (S fuel) st = Some st') /\
  readProcessUpdates st = Some st'.
Proof.
  intros H. unfold readProcessUpdates. split; [intros fuel|]; simpl;
    rewrite H; reflexivity.
Qed.

(** C4: a remove-process frame (tag 2, then the name [n]) takes the entry
    keyed [n] out of the table when there is one, handing the removed
    process to the onProcessRemoved callback if one is registered; when
    there is none, [dict.pop] raises KeyError, the table is left as it was
    and the listener's read loop ends there. *)
Theorem remove_frame (st : State) (n rest : list byte) (more : list (list byte)) :
  (length n <= 127)%nat ->
  inbound (self st) = ((x02 :: wire_string n) ++ rest) :: more ->
  match rendezvous st !! PyBytes n with
  | Some p =>
      fst (readProcessUpdate st) = inr true /\
      rendezvous (snd (readProcessUpdate st)) =
        delete (PyBytes n) (rendezvous st) /\
      rendezvous (snd (readProcessUpdate st)) !! PyBytes n = None /\
      delivered (self (snd (readProcessUpdate st))) =
        delivered (self st) ++
        (if onProcessRemoved (self st) then [ProcessRemoved p] else [])
  | None =>
      readProcessUpdate st = (inl KeyError, set_inbound (rest :: more) st) /\
      readProcessUpdates st = Some (set_inbound (rest :: more) st)
  end.
Proof.
  intros Hlen Hin.
  assert (Hrun : readProcessUpdate st =
    (let! removed := rendezvous_pop (PyBytes n) in
     run! invoke onProcessRemoved (ProcessRemoved removed) in ret true)
      (set_inbound (rest :: more) st)).
  { unfold readProcessUpdate. unfold bind at 1.
    rewrite (readByte_head st x02 (wire_string n ++ rest) more Hin).
    change (Struct.signed 8 (Z_of_byte x02)) with 2. cbn [Z.eqb Pos.eqb].
    unfold bind at 1.
    rewrite (reads_readString n Hlen
               (set_inbound ((wire_string n ++ rest) :: more) st) rest more
               eq_refl).
    reflexivity. }
  rewrite Hrun. unfold bind, rendezvous_pop. simpl.
  destruct (rendezvous st !! PyBytes n) as [p|] eqn:Hp.
  - unfold invoke. simpl.
    destruct (onProcessRemoved (self st)); simpl;
      (split; [reflexivity|]; split; [reflexivity|];
       split; [apply lookup_delete_eq|]).
    + reflexivity.
    + rewrite app_nil_r. reflexivity.
  - split; [reflexivity|].
    apply (listener_stops st _ KeyError).
    rewrite Hrun. unfold bind, rendezvous_pop. simpl. rewrite Hp. reflexivity.
Qed.

Lemma remove_frame_witness :
  fst (readProcessUpdate
         (knows_camera1 [x02 :: wire_string (list_byte_of_string "camera1")]))
    = inr true /\
  readProcessUpdate (fresh [x02 :: wire_string (list_byte_of_string "camera1")])
    = (inl KeyError,
       set_inbound [[]]
         (fresh [x02 :: wire_string (list_byte_of_string "camera1")])).
Proof.
  split.
  - pose proof (remove_frame
      (knows_camera1 [x02 :: wire_string (list_byte_of_string "camera1")])
      (list_byte_of_string "camera1") [] []
      ltac:(simpl; lia) ltac:(reflexivity)) as H.
    change (rendezvous (knows_camera1 _))
      with ({[ bytes "camera1" := received_process camera1 ]}
              : gmap pyval Process) in H.
    change (PyBytes (list_byte_of_string "camera1")) with (bytes "camera1") in H.
    rewrite lookup_singleton_eq in H. exact (proj1 H).
  - pose proof (remove_frame
      (fresh [x02 :: wire_string (list_byte_of_string "camera1")])
      (list_byte_of_string "camera1") [] []
      ltac:(simpl; lia) ltac:(reflexivity)) as H.
    change (rendezvous (fresh _)) with (∅ : gmap pyval Process) in H.
    rewrite lookup_empty in H. exact (proj1 H).
Defined.

(** ** Unknown tags *)

Lemma readProcessUpdate_unknown_tag (st : State) b rest more :
  inbound (self st) = (b :: rest) :: more ->
  Struct.signed 8 (Z_of_byte b) <> 0 ->
  Struct.signed 8 (Z_of_byte b) <> 1 ->
  Struct.signed 8 (Z_of_byte b) <> 2 ->
  readProcessUpdate st =
    (inl (PyException "Unexpected rendezvous action."),
     set_inbound (rest :: more) st).
Proof.
  intros Hin H0 H1 H2. unfold readProcessUpdate, bind.
  rewrite (readByte_head st b rest more Hin).
  destruct (Z.eqb_spec (Struct.signed 8 (Z_of_byte b)) 0); [contradiction|].
  destruct (Z.eqb_spec (Struct.signed 8 (Z_of_byte b)) 1); [contradiction|].
  destruct (Z.eqb_spec (Struct.signed 8 (Z_of_byte b)) 2); [contradiction|].
  reflexivity.
Qed.

Lemma readEndpoint_unknown_tag (st : State) b rest more :
  inbound (self st) = (b :: rest) :: more ->
  ~ 0 <= Struct.signed 8 (Z_of_byte b) <= 3 ->
  readEndpoint st = (inl ValueError, set_inbound (rest :: more) st).
Proof.
  intros Hin Ht. unfold readEndpoint. unfold bind at 1.
  rewrite (readByte_head st b rest more Hin).
  unfold bind, EndpointKind.of_value.
  replace ((0 <=? Struct.signed 8 (Z_of_byte b)) &&
           (Struct.signed 8 (Z_of_byte b) <=? 3)) with false; [reflexivity|].
  symmetry. apply andb_false_iff. lia.
Qed.

Lemma readEndpoint_unknown_transport (st : State) host port t rest more :
  (length host <= 127)%nat -> int32 port -> int32 t -> ~ 0 <= t <= 2 ->
  inbound (self st) =
    (x02 :: wire_string host ++ wire_int port ++ wire_int t ++ rest) :: more ->
  readEndpoint st = (inl ValueError, set_inbound (rest :: more) st).
Proof.
  intros Hh Hp Hi Ht Hin. unfold readEndpoint. unfold bind at 1.
  rewrite (readByte_head st x02 _ more Hin).
  change (Struct.signed 8 (Z_of_byte x02)) with 2.
  cbn.
  unfold bind at 1.
  rewrite (reads_readString host Hh
             (set_inbound ((wire_string host ++ wire_int port ++ wire_int t ++ rest)
                             :: more) st) _ more eq_refl).
  rewrite set_inbound_twice. unfold bind at 1.
  rewrite (reads_readInt port Hp
             (set_inbound ((wire_int port ++ wire_int t ++ rest) :: more) st)
             _ more eq_refl).
  rewrite set_inbound_twice. unfold bind at 1.
  rewrite (reads_readInt t Hi
             (set_inbound ((wire_int t ++ rest) :: more) st) _ more eq_refl).
  rewrite set_inbound_twice.
  unfold bind, TransportKind.of_value.
  replace ((0 <=? t) && (t <=? 2)) with false; [reflexivity|].
  symmetry. apply andb_false_iff. lia.
Qed.

Lemma collect_fails {A} (body : M A) (k : nat) st xs st1 e st2 :
  collect k body st = (inr xs, st1) ->
  body st1 = (inl e, st2) ->
  forall m, collect (k + S m) body st = (inl e, st2).
Proof.
  revert st xs. induction k as [|k IH]; intros st xs Hk Hb m.
  - simpl in Hk. injection Hk as <- <-. simpl. unfold bind. rewrite Hb.
    reflexivity.
  - simpl in Hk. unfold bind in Hk.
    destruct (body st) as [[e0|x] st0] eqn:Ex; [discriminate Hk|].
    destruct (collect k body st0) as [[e0|xs0] st3] eqn:Ec; [discriminate Hk|].
    simpl in Hk. injection Hk as <- <-.
    cbn [Nat.add collect]. unfold bind. rewrite Ex.
    rewrite (IH st0 xs0 Ec Hb m). reflexivity.
Qed.

Lemma readProcess_endpoint_fails st name version count st1 k eps st2 e st3 :
  readHeader st = (inr (name, version, count), st1) ->
  (k < Z.to_nat count)%nat ->
  collect k readEndpoint st1 = (inr eps, st2) ->
  readEndpoint st2 = (inl e, st3) ->
  readProcess st = (inl e, st3).
Proof.
  intros Hh Hk Hc He. unfold readHeader, readProcess, bind in *.
  destruct (readString st) as [[e0|nm] sa]; [discriminate Hh|].
  destruct (readString sa) as [[e0|vs] sb]; [discriminate Hh|].
  destruct (readInt sb) as [[e0|ct] sc]; [discriminate Hh|].
  simpl in Hh. injection Hh as <- <- <- <-.
  replace (Z.to_nat ct) with (k + S (Z.to_nat ct - S k))%nat by lia.
  rewrite (collect_fails readEndpoint k sc eps st2 e st3 Hc He). reflexivity.
Qed.

Lemma readProcessUpdate_process_fails (st : State) rest more e st' :
  inbound (self st) = (x01 :: rest) :: more ->
  readProcess (set_inbound (rest :: more) st) = (inl e, st') ->
  readProcessUpdate st = (inl e, st').
Proof.
  intros Hin Hp. unfold readProcessUpdate. unfold bind at 1.
  rewrite (readByte_head st x01 rest more Hin).
  change (Struct.signed 8 (Z_of_byte x01)) with 1. cbn [Z.eqb Pos.eqb].
  unfold bind at 1. rewrite Hp. reflexivity.
Qed.

(** C5: an update-frame tag other than 0, 1 and 2 makes __readProcessUpdate
    raise (Exception "Unexpected rendezvous action."); an endpoint tag
    outside 0..3 and a transport tag outside 0..2 make __readEndpoint raise
    (the ValueError of the enumeration's constructor); an endpoint that
    raises makes __readProcess raise the same exception, and a process that
    raises makes __readProcessUpdate raise it.  Any exception raised by
    __readProcessUpdate ends the listener's loop at once, with the table
    and the callback log as they were before that update: nothing further
    is delivered. *)
Theorem decode_errors_stop_the_listener :
  (forall st b rest more,
     inbound (self st) = (b :: rest) :: more ->
     (Struct.signed 8 (Z_of_byte b) <> 0 ->
      Struct.signed 8 (Z_of_byte b) <> 1 ->
      Struct.signed 8 (Z_of_byte b) <> 2 ->
      readProcessUpdate st =
        (inl (PyException "Unexpected rendezvous action."),
         set_inbound (rest :: more) st)) /\
     (~ 0 <= Struct.signed 8 (Z_of_byte b) <= 3 ->
      readEndpoint st = (inl ValueError, set_inbound (rest :: more) st))) /\
  (forall st host port t rest more,
     (length host <= 127)%nat -> int32 port -> int32 t -> ~ 0 <= t <= 2 ->
     inbound (self st) =
       (x02 :: wire_string host ++ wire_int port ++ wire_int t ++ rest)
       :: more ->
     readEndpoint st = (inl ValueError, set_inbound (rest :: more) st)) /\
  (forall st name version count st1 k eps st2 e st3,
     readHeader st = (inr (name, version, count), st1) ->
     (k < Z.to_nat count)%nat ->
     collect k readEndpoint st1 = (inr eps, st2) ->
     readEndpoint st2 = (inl e, st3) ->
     readProcess st = (inl e, st3)) /\
  (forall st rest more e st',
     inbound (self st) = (x01 :: rest) :: more ->
     readProcess (set_inbound (rest :: more) st) = (inl e, st') ->
     readProcessUpdate st = (inl e, st')) /\
  (forall st e st',
     readProcessUpdate st = (inl e, st') ->
     readProcessUpdates st = Some st' /\
     (forall fuel, readProcessUpdates_loop (S fuel) st = Some st') /\
     rendezvous st' = rendezvous st /\
     delivered (self st') = delivered (self st)).
Proof.
  split; [|split; [|split; [|split]]].
  - intros st b rest more Hin. split.
    + apply readProcessUpdate_unknown_tag. exact Hin.
    + apply readEndpoint_unknown_tag. exact Hin.
  - exact readEndpoint_unknown_transport.
  - exact readProcess_endpoint_fails.
  - exact readProcessUpdate_process_fails.
  - intros st e st' H.
    destruct (listener_stops st st' e H) as [Hloop Hrun].
    split; [exact Hrun|]. split; [exact Hloop|].
    rewrite (readProcessUpdate_raises st st' e H). split; reflexivity.
Qed.

Lemma decode_errors_stop_the_listener_witness :
  readProcessUpdate (fresh [[x09; x01]]) =
    (inl (PyException "Unexpected rendezvous action."),
     set_inbound [[x01]] (fresh [[x09; x01]])) /\
  readProcessUpdates (fresh [[x09; x01]]) =
    Some (set_inbound [[x01]] (fresh [[x09; x01]])).
Proof.
  destruct decode_errors_stop_the_listener as (Htag & _ & _ & _ & Hstop).
  assert (H : readProcessUpdate (fresh [[x09; x01]]) =
    (inl (PyException "Unexpected rendezvous action."),
     set_inbound [[x01]] (fresh [[x09; x01]]))).
  { apply (Htag (fresh [[x09; x01]]) x09 [x01] []);
      [reflexivity | vm_compute; discriminate ..]. }
  split; [exact H|]. exact (proj1 (Hstop _ _ _ H)).
Defined.

(** ** The handshake and [start] *)

Lemma sendProtocolVersion_sends (st : State) :
  sendProtocolVersion st = (inr tt, add_outbound [x02; x00] st).
Proof. reflexivity. Qed.

Lemma readProtocolVersion_wire (v : Z) (st : State) rest more :
  - 2 ^ 15 <= v < 2 ^ 15 ->
  inbound (self st) = (Struct.le_bytes 2 v ++ rest) :: more ->
  readProtocolVersion st =
    (if v =? PROTOCOL_VERSION then inr tt
     else inl (PyException "RendezvousClient protocol mismatch 2"),
     set_inbound (rest :: more) st).
Proof.
  intros Hv Hin. unfold readProtocolVersion. unfold bind at 1.
  pose proof (reads_recv (Struct.le_bytes 2 v) st rest more Hin) as Hr.
  change (Z.of_nat (length (Struct.le_bytes 2 v))) with 2 in Hr.
  rewrite Hr. unfold bind. destruct (unpack_h_pack_h v Hv) as [_ ->]. simpl.
  destruct (v =? PROTOCOL_VERSION); reflexivity.
Qed.



(** C2 does not hold of the code: [start] never returns normally.  After
    the handshake it receives one byte and then calls [struct.unpack('B')]
    without the buffer, which raises TypeError before the process count is
    read; before that point it can only have raised already.  In
    particular, against a server that answers version 2 and then sends an
    empty address and the count 0, [start] raises TypeError, the table is
    untouched and the listener thread is never started. *)
Theorem start_never_returns (added removed : bool) (st : State) :
  (exists e, fst (start added removed st) = inl e) /\
  (forall rest more,
     reachable (self st) = true ->
     inbound (self st) = (x02 :: x00 :: rest) :: more ->
     fst (start added removed st) = inl TypeError /\
     rendezvous (snd (start added removed st)) = rendezvous st /\
     thread_started (self (snd (start added removed st))) =
       thread_started (self st)) /\
  start false false
    (fresh [[x02; x00]; [x00]; [x00; x00; x00; x00]]) =
    (inl TypeError,
     set_inbound [[]; [x00; x00; x00; x00]]
       (add_outbound [x02; x00]
          (fresh [[x02; x00]; [x00]; [x00; x00; x00; x00]]))).
Proof.
  split; [|split].
  - unfold start. unfold bind at 1. unfold socket_connect.
    destruct (reachable (self st)); [|eexists; reflexivity].
    unfold bind at 1. unfold bind at 1. rewrite sendProtocolVersion_sends.
    unfold bind at 1.
    destruct (readProtocolVersion _) as [[e|[]] s3]; [eexists; reflexivity|].
    unfold bind at 1.
    destruct (socket_recv_inv 1 s3 ltac:(lia)) as (data & s4 & -> & _).
    eexists. reflexivity.
  - intros rest more Hup Hin.
    set (s3 := set_inbound (rest :: more)
                 (add_outbound [x02; x00] (set_callbacks added removed st))).
    destruct (socket_recv_inv 1 s3 ltac:(lia)) as (data & s4 & E & _ & _ & _).
    pose proof (only_reads_recv 1 s3) as Ho. rewrite E in Ho. simpl in Ho.
    assert (Hs : start added removed st = (inl TypeError, s4)).
    { unfold start. unfold bind at 1. unfold socket_connect. rewrite Hup.
      unfold bind at 1. unfold bind at 1. rewrite sendProtocolVersion_sends.
      unfold bind at 1.
      rewrite (readProtocolVersion_wire 2
                 (add_outbound [x02; x00] (set_callbacks added removed st))
                 rest more ltac:(lia) Hin).
      cbn [Z.eqb Pos.eqb PROTOCOL_VERSION]. unfold bind at 1.
      fold s3. rewrite E. reflexivity. }
    rewrite Hs. simpl. split; [reflexivity|]. rewrite Ho.
    split; reflexivity.
  - reflexivity.
Qed.

(** ** Several clients in one program *)

(** C7 does not hold of the code: the table is an attribute of the class,
    shared by all instances.  With two clients constructed, the first one
    processing an add-process frame for camera1 puts camera1 in the table
    the second one observes, which was empty before; and a client
    constructed afterwards starts with a table that already holds
    camera1. *)
Theorem instances_share_the_table :
  table_of 1 two_clients = Some ∅ /\
  exists w,
    call 0 readProcessUpdate two_clients = Some (inr true, w) /\
    table_of 1 w = Some {[ bytes "camera1" := received_process camera1 ]} /\
    table_of 2 (construct (str "hostC") None true [] w) =
      Some {[ bytes "camera1" := received_process camera1 ]}.
Proof.
  split; [reflexivity|].
  eexists. split; [vm_compute; reflexivity|].
  split; vm_compute; reflexivity.
Qed.

(** ** Outcomes of the encoders *)

Lemma utf8_char_error (c : Z) (e : exn) :
  utf8_char c = inl e -> e = UnicodeEncodeError.
Proof.
  unfold utf8_char.
  repeat match goal with
         | |- context [if ?c then _ else _] => destruct c
         end; congruence.
Qed.

Lemma utf8_error (s : list N) (e : exn) :
  utf8 s = inl e -> e = UnicodeEncodeError.
Proof.
  induction s as [|c s IH]; simpl; [discriminate|].
  destruct (utf8_char (Z.of_N c)) eqn:Ec.
  - intros H. injection H as <-. exact (utf8_char_error _ _ Ec).
  - destruct (utf8 s); [|discriminate].
    intros H. injection H as <-. apply IH. reflexivity.
Qed.

Lemma encode_error (s : pyval) (e : exn) : encode s = inl e -> builtin e.
Proof.
  destruct s as [cs|b]; simpl.
  - intros H. rewrite (utf8_error _ _ H). exact I.
  - intros H. injection H as <-. exact I.
Qed.

Lemma plain_pack (r : res (list byte)) (wire : list byte) :
  match r with inr d => d = wire | inl e => builtin e end ->
  plain (let! d := lift r in socket_send d) wire.
Proof.
  intros H st. unfold bind, lift. destruct r as [e|d]; simpl; [exact H|].
  subst d. reflexivity.
Qed.

Lemma plain_sendByte (b : Z) : plain (sendByte b) [byte_of_Z b].
Proof.
  apply plain_pack. unfold Struct.pack_b.
  destruct ((-128 <=? b) && (b <=? 127)); [reflexivity|exact I].
Qed.

Lemma plain_sendInt (c : Z) : plain (sendInt c) (wire_int c).
Proof.
  apply plain_pack. unfold Struct.pack_i.
  destruct ((- 2 ^ 31 <=? c) && (c <? 2 ^ 31)); [reflexivity|exact I].
Qed.

Lemma plain_sendString (s : pyval) : plain (sendString s) (wire_string (text s)).
Proof.
  intros st. unfold sendString. unfold bind at 1. unfold text.
  destruct (encode s) as [e|bs] eqn:Es; simpl; [exact (encode_error s e Es)|].
  apply (plain_pack (Struct.pack_b_s (Z.of_nat (length bs)) bs)).
  unfold Struct.pack_b_s, Struct.pack_b.
  destruct ((-128 <=? Z.of_nat (length bs)) && (Z.of_nat (length bs) <=? 127));
    [|exact I].
  rewrite Nat2Z.id, firstn_all, Nat.sub_diag. simpl.
  rewrite app_nil_r. reflexivity.
Qed.

Lemma plain_seq (m k : M unit) w1 w2 :
  plain m w1 -> plain k w2 -> plain (run! m in k) (w1 ++ w2).
Proof.
  intros Hm Hk st. unfold bind. specialize (Hm st).
  destruct (m st) as [[e|u] st1]; [exact Hm|]. subst st1.
  specialize (Hk (add_outbound w1 st)).
  destruct (k (add_outbound w1 st)) as [[e|u'] st2]; [exact Hk|].
  subst st2. apply add_outbound_twice.
Qed.

Lemma plain_item {A} (field : option A) (d : A) (k : A -> M unit)
    (w : A -> list byte) :
  (forall v, plain (k v) (w v)) ->
  plain (let! v := item field in k v) (w (default d field)).
Proof.
  intros H st. unfold bind. destruct field as [v|]; simpl; [apply H|exact I].
Qed.

Lemma plain_for_each {A} (body : A -> M unit) (wire : A -> list byte) xs :
  (forall x, plain (body x) (wire x)) ->
  plain (for_each xs body) (concat (map wire xs)).
Proof.
  intros H. induction xs as [|x xs IH]; simpl.
  - intros st. simpl. rewrite add_outbound_nil. reflexivity.
  - apply plain_seq; [apply H|exact IH].
Qed.

Lemma plain_send_stream (s : Stream) : plain (send_stream s) (wire_stream s).
Proof. apply plain_seq; apply plain_sendString. Qed.

Lemma plain_host_port (e : Endpoint) :
  plain (let! host := item (ep_host e) in
         run! sendString host in
         let! port := item (ep_port e) in
         sendInt port)
        (wire_host_port e).
Proof.
  apply (plain_item (ep_host e) (PyStr []) _
           (fun host => wire_string (text host) ++
                        wire_int (default 0 (ep_port e)))).
  intros host. apply plain_seq; [apply plain_sendString|].
  apply (plain_item (ep_port e) 0 _ wire_int). apply plain_sendInt.
Qed.

Lemma plain_fields (e : Endpoint) :
  0 <= ep_endpoint e <= 3 ->
  plain (send_endpoint_fields e) (wire_fields e).
Proof.
  intros Ht. unfold send_endpoint_fields, wire_fields.
  destruct (Z.eqb_spec (ep_endpoint e) EndpointKind.TcpSource) as [E0|E0];
    [apply plain_host_port|].
  destruct (Z.eqb_spec (ep_endpoint e) EndpointKind.NetMQSource) as [E1|E1].
  { apply (plain_item (ep_address e) (PyStr []) _
             (fun a => wire_string (text a))).
    apply plain_sendString. }
  destruct (Z.eqb_spec (ep_endpoint e) EndpointKind.RemoteExporter) as [E2|E2].
  { unfold wire_host_port. rewrite <- app_assoc.
    apply (plain_item (ep_host e) (PyStr []) _
             (fun host => wire_string (text host) ++
                          wire_int (default 0 (ep_port e)) ++
                          wire_int (default 0 (ep_transport e)))).
    intros host. apply plain_seq; [apply plain_sendString|].
    apply (plain_item (ep_port e) 0 _
             (fun port => wire_int port ++
                          wire_int (default 0 (ep_transport e)))).
    intros port. apply plain_seq; [apply plain_sendInt|].
    apply (plain_item (ep_transport e) 0 _ wire_int). apply plain_sendInt. }
  destruct (Z.eqb_spec (ep_endpoint e) EndpointKind.RemoteClockExporter) as [E|E];
    [apply plain_host_port|].
  exfalso. kinds. lia.
Qed.

Lemma fields_unknown (e : Endpoint) (st : State) :
  ~ 0 <= ep_endpoint e <= 3 ->
  send_endpoint_fields e st =
    (inl (PyException "Unknown type of Endpoint."), st).
Proof.
  intros Ht. unfold send_endpoint_fields. kinds.
  destruct (Z.eqb_spec (ep_endpoint e) 0); [lia|].
  destruct (Z.eqb_spec (ep_endpoint e) 1); [lia|].
  destruct (Z.eqb_spec (ep_endpoint e) 2); [lia|].
  destruct (Z.eqb_spec (ep_endpoint e) 3); [lia|]. reflexivity.
Qed.

Lemma plain_streams (ss : list Stream) :
  plain (run! sendInt (Z.of_nat (length ss)) in for_each ss send_stream)
        (wire_int (Z.of_nat (length ss)) ++ concat (map wire_stream ss)).
Proof.
  apply plain_seq; [apply plain_sendInt|].
  apply plain_for_each. exact plain_send_stream.
Qed.

Lemma builtin_outcome (e : Endpoint) (st st' : State) (x : exn) :
  builtin x -> endpoint_outcome e st (inl x, st').
Proof. destruct x; simpl; intros H; [exact I ..|contradiction]. Qed.

Lemma send_endpoint_outcome (e : Endpoint) (st : State) :
  endpoint_outcome e st (send_endpoint e st).
Proof.
  unfold send_endpoint. unfold bind at 1.
  pose proof (plain_sendByte (ep_endpoint e) st) as Hb.
  destruct (sendByte (ep_endpoint e) st) as [[x|u] s1];
    [apply builtin_outcome; exact Hb|]. subst s1.
  destruct (Z_le_dec 0 (ep_endpoint e)) as [Hlo|Hlo];
    [destruct (Z_le_dec (ep_endpoint e) 3) as [Hhi|Hhi]|].
  - pose proof (plain_seq _ _ _ _ (plain_fields e (conj Hlo Hhi))
                  (plain_streams (ep_streams e))
                  (add_outbound [byte_of_Z (ep_endpoint e)] st)) as Hf.
    destruct ((run! send_endpoint_fields e
               in run! sendInt (Z.of_nat (length (ep_streams e)))
                  in for_each (ep_streams e) send_stream)
                (add_outbound [byte_of_Z (ep_endpoint e)] st))
      as [[x|u'] s2]; [apply builtin_outcome; exact Hf|].
    subst s2. simpl. rewrite add_outbound_twice. reflexivity.
  - unfold bind. rewrite fields_unknown by lia. simpl.
    split; [reflexivity|]. split; [lia|reflexivity].
  - unfold bind. rewrite fields_unknown by lia. simpl.
    split; [reflexivity|]. split; [lia|reflexivity].
Qed.

Lemma send_endpoints_outcome (es : list Endpoint) (st : State) :
  endpoints_outcome es st (for_each es send_endpoint st).
Proof.
  revert st. induction es as [|e es IH]; intros st.
  - simpl. rewrite add_outbound_nil. reflexivity.
  - cbn [for_each]. unfold bind.
    pose proof (send_endpoint_outcome e st) as He.
    destruct (send_endpoint e st) as [[x|u] s1].
    + destruct x; try exact I. destruct He as (Hm & Ht & ->).
      exists [], e, es. split; [reflexivity|]. split; [exact Ht|reflexivity].
    + simpl in He. subst s1.
      specialize (IH (add_outbound (wire_endpoint e) st)).
      destruct (for_each es send_endpoint (add_outbound (wire_endpoint e) st))
        as [[x|u'] s2].
      * destruct x; try exact I.
        destruct IH as (before & e' & after & -> & Ht & ->).
        exists (e :: before), e', after.
        split; [reflexivity|]. split; [exact Ht|].
        rewrite add_outbound_twice. cbn [map concat].
        rewrite <- app_assoc. reflexivity.
      * simpl in IH. subst s2. simpl.
        rewrite add_outbound_twice. reflexivity.
Qed.

Lemma for_each_app {A} (xs ys : list A) (body : A -> M unit) (st : State) :
  for_each (xs ++ ys) body st = (run! for_each xs body in for_each ys body) st.
Proof.
  revert st. induction xs as [|x xs IH]; intros st; [reflexivity|].
  cbn [app for_each]. unfold bind. destruct (body x st) as [[e|u] s1];
    [reflexivity|].
  rewrite IH. reflexivity.
Qed.

Lemma sendByte_out_of_range (b : Z) (st : State) :
  ~ -128 <= b <= 127 -> sendByte b st = (inl StructError, st).
Proof.
  intros H. unfold sendByte, bind, Struct.pack_b.
  replace ((-128 <=? b) && (b <=? 127)) with false; [reflexivity|].
  symmetry. apply andb_false_iff. lia.
Qed.

(** C10, as stated, fails: the tag 200 is none of the four kinds, and
    addProcess raises for it before any tag byte is written.  The frame
    tag, the name, the version and the endpoint count are on the socket,
    the endpoint's tag is not, and the exception is struct.error. *)
Lemma unknown_tag_may_not_be_written :
  ~ 0 <= 200 <= 3 /\
  addProcess far_process (fresh []) =
    (inl StructError,
     add_outbound
       [x01; x01; "p"%byte; x01; "1"%byte; x01; x00; x00; x00]
       (fresh [])).
Proof. split; [lia|reflexivity]. Qed.

(** C10, amended: when a process holds an endpoint whose tag is none of
    0..3, and everything before it can be sent (name and version are short
    text, the count fits 32 bits, the endpoints before it are well
    formed), addProcess raises after it has sent the frame tag 1, the
    name, the version, the endpoint count and the endpoints before.  If
    the tag fits a signed byte it is sent too, and the exception is
    (Exception "Unknown type of Endpoint."); if it does not, the tag byte
    is not sent and the exception is struct.error.  And whenever
    addProcess raises the unknown-endpoint exception, it is at such an
    endpoint and with exactly the bytes up to and including its tag byte
    already sent.  Either way the frame is left unfinished on the
    socket. *)
Theorem unknown_endpoint_raises_mid_frame (p : Process) (st : State) :
  (forall before e after,
     proc_endpoints p = before ++ e :: after ->
     short (proc_name p) -> short (proc_version p) ->
     int32 (Z.of_nat (length (proc_endpoints p))) ->
     Forall wf_endpoint before ->
     -128 <= ep_endpoint e <= 127 -> ~ 0 <= ep_endpoint e <= 3 ->
     addProcess p st =
       (inl (PyException "Unknown type of Endpoint."),
        add_outbound
          (x01 :: wire_string (text (proc_name p)) ++
                  wire_string (text (proc_version p)) ++
                  wire_int (Z.of_nat (length (proc_endpoints p))) ++
                  concat (map wire_endpoint before) ++
                  [byte_of_Z (ep_endpoint e)]) st)) /\
  (forall st',
     addProcess p st = (inl (PyException "Unknown type of Endpoint."), st') ->
     exists before e after,
       proc_endpoints p = before ++ e :: after /\
       ~ 0 <= ep_endpoint e <= 3 /\
       st' = add_outbound
               (x01 :: wire_string (text (proc_name p)) ++
                       wire_string (text (proc_version p)) ++
                       wire_int (Z.of_nat (length (proc_endpoints p))) ++
                       concat (map wire_endpoint before) ++
                       [byte_of_Z (ep_endpoint e)]) st) /\
  (forall before e after,
     proc_endpoints p = before ++ e :: after ->
     short (proc_name p) -> short (proc_version p) ->
     int32 (Z.of_nat (length (proc_endpoints p))) ->
     Forall wf_endpoint before ->
     ~ -128 <= ep_endpoint e <= 127 ->
     addProcess p st =
       (inl StructError,
        add_outbound
          (x01 :: wire_string (text (proc_name p)) ++
                  wire_string (text (proc_version p)) ++
                  wire_int (Z.of_nat (length (proc_endpoints p))) ++
                  concat (map wire_endpoint before)) st)).
Proof.
  split; [|split].
  - intros before e after Heps Hn Hv Hc Hb Hbyte Htag.
    unfold addProcess, send_process. unfold bind at 1.
    rewrite (sends_sendByte 1 ltac:(lia) st). unfold bind at 1.
    rewrite (sends_sendString _ Hn). unfold bind at 1.
    rewrite (sends_sendString _ Hv). unfold bind at 1.
    rewrite (sends_sendInt _ Hc). rewrite Heps at 1.
    rewrite for_each_app. unfold bind at 1.
    rewrite (sends_for_each send_endpoint wire_endpoint before).
    2:{ intros x Hx. apply sends_send_endpoint.
        rewrite Forall_forall in Hb. apply Hb. apply list_elem_of_In.
        exact Hx. }
    cbn [for_each]. unfold bind at 1. unfold send_endpoint. unfold bind at 1.
    rewrite (sends_sendByte _ Hbyte). unfold bind at 1.
    rewrite fields_unknown by exact Htag.
    rewrite !add_outbound_twice. reflexivity.
  - intros st' H. unfold addProcess, send_process in H.
    unfold bind at 1 in H. rewrite (sends_sendByte 1 ltac:(lia) st) in H.
    unfold bind at 1 in H.
    pose proof (plain_sendString (proc_name p) (add_outbound [byte_of_Z 1] st))
      as Hn.
    destruct (sendString (proc_name p) (add_outbound [byte_of_Z 1] st))
      as [[x|u] s1].
    { injection H as -> _. contradiction Hn. }
    subst s1. unfold bind at 1 in H.
    match type of H with context [sendString (proc_version p) ?s] =>
      pose proof (plain_sendString (proc_version p) s) as Hv;
      destruct (sendString (proc_version p) s) as [[x|u1] s2]
    end.
    { injection H as -> _. contradiction Hv. }
    subst s2. unfold bind at 1 in H.
    match type of H with context [sendInt ?c ?s] =>
      pose proof (plain_sendInt c s) as Hc;
      destruct (sendInt c s) as [[x|u2] s3]
    end.
    { injection H as -> _. contradiction Hc. }
    subst s3.
    match type of H with for_each _ _ ?s = _ =>
      pose proof (send_endpoints_outcome (proc_endpoints p) s) as He
    end.
    rewrite H in He. destruct He as (before & e & after & Heps & Ht & ->).
    exists before, e, after. split; [exact Heps|]. split; [exact Ht|].
    rewrite !add_outbound_twice. reflexivity.
  - intros before e after Heps Hn Hv Hc Hb Hbyte.
    unfold addProcess, send_process. unfold bind at 1.
    rewrite (sends_sendByte 1 ltac:(lia) st). unfold bind at 1.
    rewrite (sends_sendString _ Hn). unfold bind at 1.
    rewrite (sends_sendString _ Hv). unfold bind at 1.
    rewrite (sends_sendInt _ Hc). rewrite Heps at 1.
    rewrite for_each_app. unfold bind at 1.
    rewrite (sends_for_each send_endpoint wire_endpoint before).
    2:{ intros x Hx. apply sends_send_endpoint.
        rewrite Forall_forall in Hb. apply Hb. apply list_elem_of_In.
        exact Hx. }
    cbn [for_each]. unfold bind at 1. unfold send_endpoint. unfold bind at 1.
    rewrite (sendByte_out_of_range _ _ Hbyte).
    rewrite !add_outbound_twice. reflexivity.
Qed.

Lemma unknown_endpoint_raises_mid_frame_witness :
  addProcess odd_process (fresh []) =
    (inl (PyException "Unknown type of Endpoint."),
     add_outbound
       [x01; x01; "p"%byte; x01; "1"%byte; x01; x00; x00; x00; x07]
       (fresh [])) /\
  addProcess far_process (fresh []) =
    (inl StructError,
     add_outbound
       [x01; x01; "p"%byte; x01; "1"%byte; x01; x00; x00; x00]
       (fresh [])).
Proof.
  split.
  - destruct (unknown_endpoint_raises_mid_frame odd_process (fresh []))
      as [H _].
    apply (H [] (mkEndpoint 7 None None None None []) []).
    + reflexivity.
    + short_text.
    + short_text.
    + unfold int32. simpl. lia.
    + constructor.
    + simpl. lia.
    + simpl. lia.
  - destruct (unknown_endpoint_raises_mid_frame far_process (fresh []))
      as (_ & _ & H).
    apply (H [] (mkEndpoint 200 None None None None []) []).
    + reflexivity.
    + short_text.
    + short_text.
    + unfold int32. simpl. lia.
    + constructor.
    + simpl. lia.
Defined.

(** ** The listener's loop ends *)

Lemma consumes_ret {A} (a : A) : consumes (ret a).
Proof. intros st. simpl. lia. Qed.

Lemma consumes_raise {A} (e : exn) : consumes (@raise A e).
Proof. intros st. simpl. lia. Qed.

Lemma consumes_lift {A} (r : res A) : consumes (lift r).
Proof. destruct r; [apply consumes_raise | apply consumes_ret]. Qed.

Lemma consumes_bind {A B} (m : M A) (k : A -> M B) :
  consumes m -> (forall a, consumes (k a)) -> consumes (bind m k).
Proof.
  intros Hm Hk st. unfold bind. specialize (Hm st).
  destruct (m st) as [[e|a] st1]; simpl in *; [exact Hm|].
  specialize (Hk a st1). lia.
Qed.

Lemma consumes_recv (n : Z) : consumes (socket_recv n).
Proof.
  intros st. unfold socket_recv.
  destruct (n <? 0); [simpl; lia|]. destruct (n =? 0); [simpl; lia|].
  pose proof (take_delivery_prefix (Z.to_nat n) (inbound (self st))) as [Hc _].
  destruct (take_delivery (Z.to_nat n) (inbound (self st))) as [data cs].
  simpl in *. unfold stream. rewrite Hc. simpl. rewrite length_app. lia.
Qed.

Lemma consumes_collect {A} (n : nat) (body : M A) :
  consumes body -> consumes (collect n body).
Proof.
  intros Hb. induction n as [|n IH]; simpl; [apply consumes_ret|].
  apply consumes_bind; [exact Hb|]. intros x.
  apply consumes_bind; [exact IH|]. intros xs. apply consumes_ret.
Qed.

Lemma consumes_setitem key p : consumes (rendezvous_setitem key p).
Proof. intros st. unfold stream. simpl. lia. Qed.

Lemma consumes_pop key : consumes (rendezvous_pop key).
Proof.
  intros st. unfold rendezvous_pop.
  destruct (rendezvous st !! key); unfold stream; simpl; lia.
Qed.

Lemma consumes_invoke registered ev : consumes (invoke registered ev).
Proof.
  intros st. unfold invoke, stream.
  destruct (registered (self st)); simpl; lia.
Qed.

#[local] Hint Resolve consumes_ret consumes_raise consumes_lift consumes_recv
  consumes_setitem consumes_pop consumes_invoke : io.

Ltac consume_step :=
  first [ solve [auto with io]
        | apply consumes_collect
        | apply consumes_bind; [|intros ?]
        | match goal with
          | |- consumes (if ?c then _ else _) => destruct c
          end ].

Lemma consumes_readByte : consumes readByte.
Proof. unfold readByte. repeat consume_step. Qed.

Lemma consumes_readInt : consumes readInt.
Proof. unfold readInt. repeat consume_step. Qed.

#[local] Hint Resolve consumes_readByte consumes_readInt : io.

Lemma consumes_readString : consumes readString.
Proof. unfold readString. repeat consume_step. Qed.

#[local] Hint Resolve consumes_readString : io.

Lemma consumes_readStreams : consumes readStreams.
Proof.
  unfold readStreams. apply consumes_bind; [auto with io|]. intros count.
  apply consumes_collect. repeat consume_step.
Qed.

#[local] Hint Resolve consumes_readStreams : io.

Lemma consumes_readEndpoint : consumes readEndpoint.
Proof. unfold readEndpoint. repeat consume_step. Qed.

#[local] Hint Resolve consumes_readEndpoint : io.

Lemma consumes_readProcess : consumes readProcess.
Proof. unfold readProcess. repeat consume_step. Qed.

#[local] Hint Resolve consumes_readProcess : io.

(** An update that asks for another turn has taken at least its tag byte
    off the socket. *)
Lemma readProcessUpdate_progress (st st' : State) :
  readProcessUpdate st = (inr true, st') -> (pending st' < pending st)%nat.
Proof.
  unfold readProcessUpdate. unfold bind at 1.
  destruct (readByte st) as [[e|update] s1] eqn:Eb; [discriminate|].
  destruct (readByte_inv _ _ _ Eb) as (b & Hs & _).
  intros H.
  assert (Hk : (length (stream st') <= length (stream s1))%nat).
  { match type of H with ?k s1 = _ =>
      assert (Hc : consumes k) by repeat consume_step;
      specialize (Hc s1); rewrite H in Hc; exact Hc
    end. }
  unfold pending. fold (stream st') (stream st). rewrite Hs. simpl. lia.
Qed.

Lemma readProcessUpdates_loop_ends (fuel : nat) (st : State) :
  (pending st < fuel)%nat -> exists st', readProcessUpdates_loop fuel st = Some st'.
Proof.
  revert st. induction fuel as [|fuel IH]; intros st Hf; [lia|].
  simpl. destruct (readProcessUpdate st) as [[e|[|]] st1] eqn:E.
  - exists st1. reflexivity.
  - apply IH. pose proof (readProcessUpdate_progress st st1 E). lia.
  - exists st1. reflexivity.
Qed.

(** The listener always comes to an end on a connection that closes. *)
Lemma readProcessUpdates_ends (st : State) :
  exists st', readProcessUpdates st = Some st'.
Proof. apply readProcessUpdates_loop_ends. lia. Qed.

(** The scenario of the specification: the server announces camera1 and
    then withdraws it. *)
Example camera1_announced_then_withdrawn :
  let announced := snd (readProcessUpdate (fresh [x01 :: wire_process camera1])) in
  (exists p e s,
     rendezvous announced !! bytes "camera1" = Some p /\
     proc_endpoints p = [e] /\ ep_port e = Some 5000 /\
     ep_streams e = [s] /\ stream_type s = bytes "image") /\
  readProcessUpdates
    (fresh [x01 :: wire_process camera1;
            x02 :: wire_string (list_byte_of_string "camera1");
            [x00]]) =
    Some (fresh [[]]).
Proof.
  split.
  - eexists _, _, _. vm_compute. repeat split.
  - vm_compute. reflexivity.
Qed.

(** * Further properties of the client *)

(** ** Frames arriving at the listener *)

Lemma added_set_inbound (p : Process) (cs : list (list byte)) (st : State) :
  added p (set_inbound cs st) = set_inbound cs (added p st).
Proof. unfold added. simpl. destruct (onProcessAdded (self st)); reflexivity. Qed.

Lemma removed_set_inbound (k : pyval) (p : Process) cs (st : State) :
  removed k p (set_inbound cs st) = set_inbound cs (removed k p st).
Proof.
  unfold removed. simpl. destruct (onProcessRemoved (self st)); reflexivity.
Qed.

Lemma readProcessUpdate_add (p : Process) (st : State) rest more :
  wf_process p ->
  inbound (self st) = (frame_add p ++ rest) :: more ->
  readProcessUpdate st =
    (inr true, set_inbound (rest :: more) (added (received_process p) st)).
Proof.
  intros Hp Hin. unfold readProcessUpdate. unfold bind at 1.
  rewrite (readByte_head st x01 (wire_process p ++ rest) more Hin).
  change (Struct.signed 8 (Z_of_byte x01)) with 1. cbn [Z.eqb Pos.eqb].
  unfold bind at 1.
  rewrite (reads_readProcess p Hp
             (set_inbound ((wire_process p ++ rest) :: more) st) rest more
             eq_refl).
  rewrite set_inbound_twice, <- added_set_inbound.
  unfold bind, rendezvous_setitem, invoke, added. simpl.
  destruct (onProcessAdded (self st)); reflexivity.
Qed.

Lemma readProcessUpdate_disconnect (st : State) rest more :
  inbound (self st) = (x00 :: rest) :: more ->
  readProcessUpdate st = (inr false, set_inbound (rest :: more) st).
Proof.
  intros Hin. unfold readProcessUpdate, bind.
  rewrite (readByte_head st x00 rest more Hin). reflexivity.
Qed.

(** X1: a frame with the tag 0 makes __readProcessUpdate return False,
    with the tag byte alone taken off the socket; the listener's loop then
    ends normally: the table, the callback log and every byte after the
    tag are left as they were. *)
Theorem disconnect_frame_ends_listener (st : State) rest more :
  inbound (self st) = (x00 :: rest) :: more ->
  readProcessUpdate st = (inr false, set_inbound (rest :: more) st) /\
  readProcessUpdates st = Some (set_inbound (rest :: more) st).
Proof.
  intros Hin. pose proof (readProcessUpdate_disconnect st rest more Hin) as H.
  split; [exact H|]. unfold readProcessUpdates. simpl. rewrite H. reflexivity.
Qed.

Lemma disconnect_frame_ends_listener_witness :
  readProcessUpdates (knows_camera1 [[x00; x01; x02]]) =
    Some (set_inbound [[x01; x02]] (knows_camera1 [[x00; x01; x02]])).
Proof.
  apply (disconnect_frame_ends_listener
           (knows_camera1 [[x00; x01; x02]]) [x01; x02] []).
  reflexivity.
Defined.

(** X2: an add-process frame for a well-formed process puts the decoded
    record in the table under its (bytes) name, replacing whatever was
    stored under that name and leaving every other key alone; the record
    is handed to onProcessAdded exactly once when a callback is
    registered, and not at all otherwise; exactly the frame is taken off
    the socket and True is returned. *)
Theorem add_frame_inserts (p : Process) (st : State) rest more :
  wf_process p ->
  inbound (self st) = (frame_add p ++ rest) :: more ->
  fst (readProcessUpdate st) = inr true /\
  rendezvous (snd (readProcessUpdate st)) =
    <[received_string (proc_name p) := received_process p]> (rendezvous st) /\
  rendezvous (snd (readProcessUpdate st)) !! received_string (proc_name p) =
    Some (received_process p) /\
  (forall k, k <> received_string (proc_name p) ->
     rendezvous (snd (readProcessUpdate st)) !! k = rendezvous st !! k) /\
  delivered (self (snd (readProcessUpdate st))) =
    delivered (self st) ++
    (if onProcessAdded (self st) then [ProcessAdded (received_process p)]
     else []) /\
  inbound (self (snd (readProcessUpdate st))) = rest :: more.
Proof.
  intros Hp Hin. rewrite (readProcessUpdate_add p st rest more Hp Hin).
  unfold added. cbn [fst snd].
  assert (Ht : rendezvous
            (set_inbound (rest :: more)
               (if onProcessAdded (self st)
                then add_delivered (ProcessAdded (received_process p))
                       (set_rendezvous
                          (<[proc_name (received_process p) :=
                               received_process p]> (rendezvous st)) st)
                else set_rendezvous
                       (<[proc_name (received_process p) :=
                            received_process p]> (rendezvous st)) st)) =
          <[received_string (proc_name p) := received_process p]>
            (rendezvous st)).
  { destruct (onProcessAdded (self st)); reflexivity. }
  split; [reflexivity|]. split; [exact Ht|]. rewrite Ht.
  split; [apply lookup_insert_eq|].
  split; [intros k Hk; apply lookup_insert_ne; congruence|].
  destruct (onProcessAdded (self st)); simpl;
    (split; [|reflexivity]); [reflexivity|].
  rewrite app_nil_r. reflexivity.
Qed.

Lemma add_frame_inserts_witness :
  rendezvous (snd (readProcessUpdate (fresh [frame_add camera1])))
    !! bytes "camera1" = Some (received_process camera1).
Proof.
  pose proof (add_frame_inserts camera1 (fresh [frame_add camera1]) [] []
                wf_camera1 ltac:(vm_compute; reflexivity)) as H.
  exact (proj1 (proj2 (proj2 H))).
Defined.

(** ** A run of add-process frames *)

Lemma foldl_added_set_inbound (ps : list Process) cs (st : State) :
  foldl (fun s p => added p s) (set_inbound cs st) ps =
  set_inbound cs (foldl (fun s p => added p s) st ps).
Proof.
  revert st. induction ps as [|p ps IH]; intros st; [reflexivity|].
  simpl. rewrite added_set_inbound. apply IH.
Qed.

Lemma loop_add_frames (ps : list Process) (fuel : nat) (st : State) rest more :
  (length ps < fuel)%nat ->
  Forall wf_process ps ->
  inbound (self st) =
    (concat (map frame_add ps) ++ x00 :: rest) :: more ->
  readProcessUpdates_loop fuel st =
    Some (set_inbound (rest :: more)
            (foldl (fun s p => added p s) st (map received_process ps))).
Proof.
  revert fuel st. induction ps as [|p ps IH]; intros fuel st Hf Hwf Hin.
  - destruct fuel as [|fuel]; [simpl in Hf; lia|]. simpl in Hin.
    cbn [readProcessUpdates_loop].
    rewrite (readProcessUpdate_disconnect st rest more Hin). reflexivity.
  - destruct fuel as [|fuel]; [simpl in Hf; lia|].
    inversion Hwf as [|p' ps' Hp Hps]; subst.
    cbn [map concat] in Hin. rewrite <- app_assoc in Hin.
    cbn [readProcessUpdates_loop].
    rewrite (readProcessUpdate_add p st _ more Hp Hin).
    rewrite (IH fuel
               (set_inbound ((concat (map frame_add ps) ++ x00 :: rest) :: more)
                  (added (received_process p) st))
               ltac:(simpl in Hf; lia) Hps eq_refl).
    cbn [map foldl]. rewrite foldl_added_set_inbound, set_inbound_twice.
    reflexivity.
Qed.

Lemma frames_length (ps : list Process) :
  (length ps <= length (concat (map frame_add ps)))%nat.
Proof.
  induction ps as [|p ps IH]; [simpl; lia|].
  cbn [map concat]. rewrite length_app. unfold frame_add at 1. simpl. lia.
Qed.

Lemma added_flag (q : Process) (st : State) :
  onProcessAdded (self (added q st)) = onProcessAdded (self st).
Proof. unfold added. destruct (onProcessAdded (self st)) eqn:E; simpl; exact E. Qed.

Lemma rendezvous_foldl_added (qs : list Process) (st : State) :
  rendezvous (foldl (fun s p => added p s) st qs) =
  foldl (fun t p => <[proc_name p := p]> t) (rendezvous st) qs.
Proof.
  revert st. induction qs as [|q qs IH]; intros st; [reflexivity|].
  cbn [foldl]. rewrite IH. unfold added.
  destruct (onProcessAdded (self st)); reflexivity.
Qed.

Lemma delivered_foldl_added (qs : list Process) (st : State) :
  delivered (self (foldl (fun s p => added p s) st qs)) =
  delivered (self st) ++
  (if onProcessAdded (self st) then map ProcessAdded qs else []).
Proof.
  revert st. induction qs as [|q qs IH]; intros st.
  - simpl. destruct (onProcessAdded (self st)); rewrite app_nil_r; reflexivity.
  - cbn [foldl]. rewrite IH, added_flag. unfold added.
    destruct (onProcessAdded (self st)); simpl; [|reflexivity].
    rewrite <- app_assoc. reflexivity.
Qed.

(** X3: when the socket holds a run of add-process frames for well-formed
    processes followed by a disconnect frame, the listener processes all
    of them in order and then stops: the table ends up as the table at the
    start with the decoded records inserted one after the other under
    their names (a later record replacing an earlier one of the same
    name), each record has been handed to onProcessAdded in arrival order
    when a callback is registered, and the bytes after the disconnect tag
    are left unread. *)
Theorem listener_applies_add_frames (ps : list Process) (st : State) rest more :
  Forall wf_process ps ->
  inbound (self st) =
    (concat (map frame_add ps) ++ x00 :: rest) :: more ->
  exists st',
    readProcessUpdates st = Some st' /\
    rendezvous st' =
      foldl (fun t p => <[proc_name p := p]> t) (rendezvous st)
            (map received_process ps) /\
    delivered (self st') =
      delivered (self st) ++
      (if onProcessAdded (self st)
       then map ProcessAdded (map received_process ps) else []) /\
    inbound (self st') = rest :: more.
Proof.
  intros Hwf Hin. eexists. split.
  - unfold readProcessUpdates. apply loop_add_frames; [|exact Hwf|exact Hin].
    unfold pending. rewrite Hin. cbn [concat]. rewrite !length_app.
    pose proof (frames_length ps). simpl. lia.
  - cbn [set_inbound rendezvous self inbound delivered].
    split; [apply rendezvous_foldl_added|].
    split; [apply delivered_foldl_added|reflexivity].
Qed.

Lemma listener_applies_add_frames_witness :
  exists st',
    readProcessUpdates (fresh [frame_add camera1 ++ frame_add camera1 ++ [x00]])
      = Some st' /\
    rendezvous st' =
      <[bytes "camera1" := received_process camera1]>
        (<[bytes "camera1" := received_process camera1]> ∅).
Proof.
  destruct (listener_applies_add_frames [camera1; camera1]
              (fresh [frame_add camera1 ++ frame_add camera1 ++ [x00]]) [] []
              ltac:(constructor; [exact wf_camera1|];
                     constructor; [exact wf_camera1|constructor])
              ltac:(vm_compute; reflexivity)) as (st' & Hrun & Ht & _).
  exists st'. split; [exact Hrun|exact Ht].
Defined.

(** ** The shape of what the decoder returns *)

Ltac open_bind H :=
  unfold bind at 1 in H;
  match type of H with
  | (let (_, _) := ?x in _) = _ =>
      destruct x as [[?e|?v] ?s] eqn:?E; [discriminate H|]
  | match ?x with _ => _ end = _ =>
      destruct x as [[?e|?v] ?s] eqn:?E; [discriminate H|]
  end.

Lemma collect_Forall {A} (P : A -> Prop) (body : M A) :
  (forall st st' x, body st = (inr x, st') -> P x) ->
  forall n st xs st', collect n body st = (inr xs, st') -> Forall P xs.
Proof.
  intros Hb. induction n as [|n IH]; intros st xs st' H.
  - injection H as <- _. constructor.
  - cbn [collect] in H. open_bind H. open_bind H.
    injection H as <- _. constructor; [exact (Hb _ _ _ E)|exact (IH _ _ _ E0)].
Qed.

Lemma readString_bytes (st st' : State) (v : pyval) :
  readString st = (inr v, st') -> exists b, v = PyBytes b.
Proof.
  intros H. destruct (readString_inv _ _ _ H) as (_ & buf & _ & _ & ->).
  exists buf. reflexivity.
Qed.

Lemma readStreams_decoded (st st' : State) (ss : list Stream) :
  readStreams st = (inr ss, st') -> Forall decoded_stream ss.
Proof.
  unfold readStreams. intros H. open_bind H.
  apply (collect_Forall decoded_stream _) in H; [exact H|].
  clear. intros st st' x H. open_bind H. open_bind H.
  destruct (readString_bytes _ _ _ E) as [n ->].
  destruct (readString_bytes _ _ _ E0) as [t ->].
  injection H as <- _. exists n, t. reflexivity.
Qed.

Lemma readEndpoint_decoded (st st' : State) (e : Endpoint) :
  readEndpoint st = (inr e, st') -> decoded_endpoint e.
Proof.
  unfold readEndpoint. intros H. open_bind H.
  unfold bind at 1 in H. unfold EndpointKind.of_value in H.
  destruct ((0 <=? v) && (v <=? 3)); [|discriminate H]. simpl in H.
  destruct (v =? EndpointKind.TcpSource).
  { open_bind H. open_bind H. open_bind H. injection H as <- _.
    destruct (readString_bytes _ _ _ E0) as [h ->].
    left. exists h, v1, v2. split; [reflexivity|].
    exact (readStreams_decoded _ _ _ E2). }
  destruct (v =? EndpointKind.NetMQSource).
  { open_bind H. open_bind H. injection H as <- _.
    destruct (readString_bytes _ _ _ E0) as [a ->].
    right. left. exists a, v1. split; [reflexivity|].
    exact (readStreams_decoded _ _ _ E1). }
  destruct (v =? EndpointKind.RemoteExporter).
  { open_bind H. open_bind H. open_bind H.
    unfold bind at 1 in H. unfold TransportKind.of_value in H.
    destruct (Z.leb_spec 0 v2); [|discriminate H].
    destruct (Z.leb_spec v2 2); [|discriminate H]. simpl in H.
    open_bind H. injection H as <- _.
    destruct (readString_bytes _ _ _ E0) as [h ->].
    right. right. left. exists h, v1, v2, v3.
    split; [reflexivity|]. split; [lia|].
    exact (readStreams_decoded _ _ _ E3). }
  destruct (v =? EndpointKind.RemoteClockExporter); [|discriminate H].
  open_bind H. open_bind H. open_bind H. injection H as <- _.
  destruct (readString_bytes _ _ _ E0) as [h ->].
  right. right. right. exists h, v1. reflexivity.
Qed.

(** X4: whatever bytes arrive, a process that __readProcess returns is
    well shaped: its name and version are bytes objects, and each of its
    endpoints is one of the four dictionaries the [create*] helpers build,
    with bytes objects for strings, streams that are name/type pairs of
    bytes objects, a transport that is one of the three kinds, and no
    stream on a clock exporter. *)
Theorem decoded_process_is_well_shaped (st st' : State) (p : Process) :
  readProcess st = (inr p, st') -> decoded_process p.
Proof.
  unfold readProcess. intros H. open_bind H. open_bind H. open_bind H.
  open_bind H. injection H as <- _.
  destruct (readString_bytes _ _ _ E) as [n ->].
  destruct (readString_bytes _ _ _ E0) as [ver ->].
  exists n, ver, v2. split; [reflexivity|].
  exact (collect_Forall decoded_endpoint readEndpoint readEndpoint_decoded
           _ _ _ _ E2).
Qed.

Lemma decoded_process_is_well_shaped_witness :
  decoded_process (received_process camera1).
Proof.
  apply (decoded_process_is_well_shaped (fresh [wire_process camera1])
           (set_inbound [[]] (fresh [wire_process camera1]))).
  vm_compute. reflexivity.
Defined.

(** ** What every update does to the state *)

(** However an update ends, the state it leaves is the state it found
    with bytes taken off the socket and at most one of: a decoded process
    stored under its bytes name, an entry of the table popped. *)
Lemma readProcessUpdate_shape (st st' : State) (r : res bool) :
  readProcessUpdate st = (r, st') ->
  exists cs,
    st' = set_inbound cs st \/
    (exists p, decoded_process p /\ st' = set_inbound cs (added p st)) \/
    (exists k p, rendezvous st !! k = Some p /\
                 st' = set_inbound cs (removed k p st)).
Proof.
  unfold readProcessUpdate. unfold bind at 1.
  pose proof (only_reads_readByte st) as Hb.
  destruct (readByte st) as [[e0|update] s1]; simpl in Hb.
  { intros H. injection H as _ <-. eexists. left. exact Hb. }
  destruct (update =? 0).
  { intros H. injection H as _ <-. eexists. left. exact Hb. }
  destruct (update =? 1).
  { unfold bind at 1. pose proof (only_reads_readProcess s1) as Hp.
    destruct (readProcess s1) as [[e1|p] s2] eqn:Ep; simpl in Hp.
    - intros H. injection H as _ <-. eexists. left.
      exact (set_inbound_chain _ _ _ _ _ Hb Hp).
    - pose proof (decoded_process_is_well_shaped _ _ _ Ep) as Hn.
      pose proof (set_inbound_chain _ _ _ _ _ Hb Hp) as Hc.
      unfold bind, rendezvous_setitem, invoke. simpl.
      intros H. exists (inbound (self s2)). right. left. exists p.
      split; [exact Hn|]. rewrite <- added_set_inbound, <- Hc.
      unfold added.
      destruct (onProcessAdded (self s2)); injection H as _ <-; reflexivity. }
  destruct (update =? 2).
  { unfold bind at 1. pose proof (only_reads_readString s1) as Hp.
    destruct (readString s1) as [[e1|name] s2]; simpl in Hp.
    - intros H. injection H as _ <-. eexists. left.
      exact (set_inbound_chain _ _ _ _ _ Hb Hp).
    - pose proof (set_inbound_chain _ _ _ _ _ Hb Hp) as Hc.
      unfold bind, rendezvous_pop, invoke.
      destruct (rendezvous s2 !! name) as [p|] eqn:El.
      + simpl. intros H. exists (inbound (self s2)). right. right.
        exists name, p. split; [rewrite Hc in El; exact El|].
        rewrite <- removed_set_inbound, <- Hc. unfold removed.
        destruct (onProcessRemoved (self s2)); injection H as _ <-;
          reflexivity.
      + intros H. injection H as _ <-. eexists. left. exact Hc. }
  intros H. injection H as _ <-. eexists. left. exact Hb.
Qed.

(** A property of two states that holds across one update, whatever its
    outcome, holds across the whole run of the listener. *)
Lemma listener_induction (R : State -> State -> Prop) :
  (forall st, R st st) ->
  (forall a b c, R a b -> R b c -> R a c) ->
  (forall st r st', readProcessUpdate st = (r, st') -> R st st') ->
  forall fuel st st', readProcessUpdates_loop fuel st = Some st' -> R st st'.
Proof.
  intros Hrefl Htrans Hstep. induction fuel as [|fuel IH]; intros st st' H;
    [discriminate H|].
  simpl in H. destruct (readProcessUpdate st) as [[e|[|]] s1] eqn:E.
  - injection H as <-. exact (Hstep _ _ _ E).
  - exact (Htrans _ _ _ (Hstep _ _ _ E) (IH _ _ H)).
  - injection H as <-. exact (Hstep _ _ _ E).
Qed.

Lemma keyed_by_name_insert (t : gmap pyval Process) (p : Process) :
  decoded_process p -> keyed_by_name t ->
  keyed_by_name (<[proc_name p := p]> t).
Proof.
  intros Hn Ht k q. destruct (decide (proc_name p = k)) as [<-|Hne].
  - rewrite lookup_insert_eq. intros H. injection H as <-.
    split; [reflexivity|exact Hn].
  - rewrite lookup_insert_ne by exact Hne. apply Ht.
Qed.

Lemma keyed_by_name_delete (t : gmap pyval Process) (k : pyval) :
  keyed_by_name t -> keyed_by_name (delete k t).
Proof.
  intros Ht k' q H. destruct (decide (k = k')) as [<-|Hne].
  - rewrite lookup_delete_eq in H. discriminate H.
  - rewrite lookup_delete_ne in H by exact Hne. exact (Ht _ _ H).
Qed.

Lemma rendezvous_added (p : Process) (st : State) :
  rendezvous (added p st) = <[proc_name p := p]> (rendezvous st).
Proof. unfold added. destruct (onProcessAdded (self st)); reflexivity. Qed.

Lemma rendezvous_removed (k : pyval) (p : Process) (st : State) :
  rendezvous (removed k p st) = delete k (rendezvous st).
Proof. unfold removed. destruct (onProcessRemoved (self st)); reflexivity. Qed.

(** X5: the listener keeps the table keyed by name and filled with
    decoded records: if every key of the table is the name of the process
    stored under it and every stored process is a record as the decoder
    builds them (bytes objects for strings, endpoints of the four known
    shapes), the same holds after the listener has run, whatever frames it
    received and however it ended; in particular it holds of the table a
    listener builds from the empty one. *)
Theorem listener_keeps_table_keyed_by_name (st st' : State) :
  keyed_by_name (rendezvous st) ->
  readProcessUpdates st = Some st' ->
  keyed_by_name (rendezvous st').
Proof.
  intros Hk Hrun. revert Hk.
  apply (listener_induction
           (fun a b => keyed_by_name (rendezvous a) ->
                       keyed_by_name (rendezvous b)))
    with (fuel := S (pending st)); [auto | auto | | exact Hrun].
  clear. intros st r st' H Hk.
  destruct (readProcessUpdate_shape _ _ _ H)
    as [cs [-> | [(p & Hn & ->) | (k & p & _ & ->)]]]; simpl.
  - exact Hk.
  - rewrite rendezvous_added. exact (keyed_by_name_insert _ _ Hn Hk).
  - rewrite rendezvous_removed. exact (keyed_by_name_delete _ _ Hk).
Qed.

Lemma keyed_by_name_empty : keyed_by_name ∅.
Proof. intros k p H. rewrite lookup_empty in H. discriminate H. Qed.

Lemma listener_keeps_table_keyed_by_name_witness :
  keyed_by_name
    (rendezvous (set_inbound [[]] (added (received_process camera1)
                                     (fresh [frame_add camera1 ++ [x00]])))).
Proof.
  apply (listener_keeps_table_keyed_by_name
           (fresh [frame_add camera1 ++ [x00]])).
  - exact keyed_by_name_empty.
  - vm_compute. reflexivity.
Defined.

Lemma listened_refl (st : State) : listened st st.
Proof.
  repeat split. exists []. split; [rewrite app_nil_r; reflexivity|].
  reflexivity.
Qed.

Lemma listened_trans (a b c : State) :
  listened a b -> listened b c -> listened a c.
Proof.
  intros (Ho1 & Hs1 & Ha1 & Hr1 & ev1 & Hd1 & Hn1)
         (Ho2 & Hs2 & Ha2 & Hr2 & ev2 & Hd2 & Hn2).
  unfold listened. rewrite Ho2, Hs2, Ha2, Hr2, Hd2, Hd1.
  repeat split; try assumption.
  exists (ev1 ++ ev2). split; [rewrite app_assoc; reflexivity|].
  intros Fa Fr. rewrite (Hn1 Fa Fr).
  rewrite Ha1, Hr1 in Hn2. rewrite (Hn2 Fa Fr). reflexivity.
Qed.

Lemma listened_step (st st' : State) (r : res bool) :
  readProcessUpdate st = (r, st') -> listened st st'.
Proof.
  intros H.
  destruct (readProcessUpdate_shape _ _ _ H)
    as [cs [-> | [(p & _ & ->) | (k & p & _ & ->)]]].
  - apply (listened_refl st).
  - unfold added. destruct (onProcessAdded (self st)) eqn:E.
    + repeat split; try exact E. exists [ProcessAdded p].
      split; [reflexivity|]. intros F. rewrite E in F. discriminate F.
    + apply (listened_refl st).
  - unfold removed. destruct (onProcessRemoved (self st)) eqn:E.
    + repeat split; try exact E. exists [ProcessRemoved p].
      split; [reflexivity|]. intros _ F. rewrite E in F. discriminate F.
    + apply (listened_refl st).
Qed.

(** X6: the listener only listens: however many frames it processes and
    however it ends, it has sent nothing on the socket and has changed
    neither the server address nor the registered callbacks; the callback
    log has only grown at its end, and has not grown at all when no
    callback is registered. *)
Theorem listener_only_listens (st st' : State) :
  readProcessUpdates st = Some st' -> listened st st'.
Proof.
  apply (listener_induction listened listened_refl listened_trans).
  intros s r s' H. exact (listened_step s s' r H).
Qed.

Lemma listener_only_listens_witness :
  listened (fresh [frame_add camera1 ++ [x00]])
           (set_inbound [[]] (added (received_process camera1)
                                (fresh [frame_add camera1 ++ [x00]]))).
Proof.
  apply (listener_only_listens (fresh [frame_add camera1 ++ [x00]])).
  vm_compute. reflexivity.
Defined.

(** ** Edges of the wire codec *)

(** X7: the length prefix of a string is read as a signed byte: when the
    prefix is 128 or more as an unsigned byte, __readString asks recv for a
    negative number of bytes and raises ValueError, with the prefix alone
    taken off the socket.  A peer's string of 128 to 255 bytes cannot be
    read. *)
Theorem readString_rejects_long_prefix (st : State) (b : byte) rest more :
  inbound (self st) = (b :: rest) :: more ->
  128 <= Z_of_byte b ->
  readString st = (inl ValueError, set_inbound (rest :: more) st).
Proof.
  intros Hin Hb. unfold readString. unfold bind at 1.
  rewrite (readByte_head st b rest more Hin).
  unfold bind, socket_recv, Struct.signed.
  change (2 ^ (8 - 1)) with 128. change (2 ^ 8) with 256.
  destruct (Z.ltb_spec (Z_of_byte b) 128) as [Hlt|_]; [lia|].
  pose proof (Z_of_byte_range b) as Hr.
  destruct (Z.ltb_spec (Z_of_byte b - 256) 0) as [_|Hge]; [reflexivity|lia].
Qed.

Lemma readString_rejects_long_prefix_witness :
  readString (fresh [[x80; "a"%byte]]) =
    (inl ValueError, set_inbound [["a"%byte]] (fresh [[x80; "a"%byte]])).
Proof.
  apply (readString_rejects_long_prefix (fresh [[x80; "a"%byte]]) x80
           ["a"%byte] []).
  - reflexivity.
  - vm_compute. discriminate.
Defined.

(** X8: a count that is zero or negative gives an empty list: __readStreams
    returns no streams and __readProcess a process without endpoints,
    taking nothing after the count off the socket ([range] of a negative
    number is empty). *)
Theorem nonpositive_counts_read_as_empty (c : Z) (st : State) rest more :
  int32 c -> c <= 0 ->
  (inbound (self st) = (wire_int c ++ rest) :: more ->
   readStreams st = (inr [], set_inbound (rest :: more) st)) /\
  (forall name version,
     (length name <= 127)%nat -> (length version <= 127)%nat ->
     inbound (self st) =
       (wire_string name ++ wire_string version ++ wire_int c ++ rest)
       :: more ->
     readProcess st =
       (inr (createProcess (PyBytes name) [] (PyBytes version)),
        set_inbound (rest :: more) st)).
Proof.
  intros Hc Hneg. assert (Hz : Z.to_nat c = 0%nat) by lia. split.
  - assert (Hr : reads readStreams (wire_int c ++ []) []).
    { unfold readStreams. eapply reads_bind; [apply reads_readInt; exact Hc|].
      rewrite Hz. apply reads_ret. }
    rewrite app_nil_r in Hr. apply Hr.
  - intros name version Hn Hv Hin.
    assert (Hr : reads readProcess
                   (wire_string name ++ wire_string version ++
                    wire_int c ++ [] ++ [])
                   (createProcess (PyBytes name) [] (PyBytes version))).
    { unfold readProcess.
      eapply reads_bind; [apply reads_readString; exact Hn|].
      eapply reads_bind; [apply reads_readString; exact Hv|].
      eapply reads_bind; [apply reads_readInt; exact Hc|].
      rewrite Hz. eapply reads_bind; apply reads_ret. }
    rewrite !app_nil_r in Hr. apply Hr. rewrite <- !app_assoc. exact Hin.
Qed.

Lemma nonpositive_counts_read_as_empty_witness :
  readStreams (fresh [[xff; xff; xff; xff; x07]]) =
    (inr [], set_inbound [[x07]] (fresh [[xff; xff; xff; xff; x07]])).
Proof.
  destruct (nonpositive_counts_read_as_empty (-1)
              (fresh [[xff; xff; xff; xff; x07]]) [x07] []
              ltac:(unfold int32; lia) ltac:(lia)) as [H _].
  apply H. reflexivity.
Defined.

(** X9: the stream count of a clock exporter is read and thrown away, and
    no stream is read after it.  If streams are attached to a
    clock-exporter dictionary, addProcess's loop body sends them like those
    of any endpoint, but __readEndpoint returns the clock exporter without
    them and leaves their bytes on the socket, where the next read takes
    them for whatever follows. *)
Theorem clock_exporter_streams_are_not_read (host : pyval) (port : Z)
    (streams : list Stream) :
  short host -> int32 port -> wf_streams streams ->
  (forall st,
     send_endpoint (clock_with_streams host port streams) st =
       (inr tt,
        add_outbound (wire_endpoint (clock_with_streams host port streams)) st))
  /\
  (forall st rest more,
     inbound (self st) =
       (wire_endpoint (clock_with_streams host port streams) ++ rest) :: more ->
     readEndpoint st =
       (inr (createRemoteClockExporterEndpoint (received_string host) port),
        set_inbound ((concat (map wire_stream streams) ++ rest) :: more) st)).
Proof.
  intros Hh Hp Hss. split.
  - unfold send_endpoint, wire_endpoint.
    change (byte_of_Z (ep_endpoint ?e) :: ?l)
      with ([byte_of_Z (ep_endpoint e)] ++ l).
    apply sends_seq; [apply sends_sendByte; simpl; kinds; lia|].
    apply sends_seq; [|apply (sends_streams streams Hss)].
    unfold send_endpoint_fields, wire_fields, wire_host_port. simpl.
    apply (sends_seq _ _ _ _ (sends_sendString host Hh)).
    apply sends_sendInt. exact Hp.
  - intros st rest more Hin.
    assert (Hr : reads readEndpoint
                   ([byte_of_Z 3] ++ wire_string (text host) ++ wire_int port ++
                    wire_int (Z.of_nat (length streams)) ++ [])
                   (createRemoteClockExporterEndpoint (received_string host)
                      port)).
    { unfold readEndpoint.
      eapply reads_bind; [apply reads_readByte; lia|]. cbn.
      rewrite bind_ret. cbn.
      eapply reads_bind; [apply reads_short_string; exact Hh|].
      eapply reads_bind; [apply reads_readInt; exact Hp|].
      eapply reads_bind; [apply reads_readInt; exact (proj1 Hss)|].
      apply reads_ret. }
    apply Hr. rewrite Hin. unfold wire_endpoint, wire_fields, wire_host_port.
    cbn. kinds. rewrite app_nil_r, <- !app_assoc. reflexivity.
Qed.

Lemma clock_exporter_streams_are_not_read_witness :
  readEndpoint
    (fresh [wire_endpoint
              (clock_with_streams (str "h") 1
                 [createStream (str "rgb") (str "image")])]) =
    (inr (createRemoteClockExporterEndpoint (bytes "h") 1),
     set_inbound [wire_stream (createStream (str "rgb") (str "image"))]
       (fresh [wire_endpoint
                 (clock_with_streams (str "h") 1
                    [createStream (str "rgb") (str "image")])])).
Proof.
  destruct (clock_exporter_streams_are_not_read (str "h") 1
              [createStream (str "rgb") (str "image")]
              ltac:(short_text) ltac:(unfold int32; lia)
              ltac:(split; [unfold int32; simpl; lia|];
                    constructor; [split; short_text|constructor]))
    as [_ H].
  apply (H _ [] []). vm_compute. reflexivity.
Defined.

(** X10: integers at their bounds.  __sendByte sends one byte for every
    value from -128 to 127, which __readByte gives back, and raises
    struct.error with nothing sent for every other value; __sendInt sends
    four bytes for every value from -2^31 to 2^31 - 1, which __readInt
    gives back, and raises struct.error with nothing sent for every other
    value. *)
Theorem integer_codec_bounds (c : Z) (st : State) :
  (-128 <= c <= 127 ->
   sendByte c st = (inr tt, add_outbound [byte_of_Z c] st) /\
   forall s rest more,
     inbound (self s) = (byte_of_Z c :: rest) :: more ->
     readByte s = (inr c, set_inbound (rest :: more) s)) /\
  (~ -128 <= c <= 127 -> sendByte c st = (inl StructError, st)) /\
  (int32 c ->
   sendInt c st = (inr tt, add_outbound (wire_int c) st) /\
   length (wire_int c) = 4%nat /\
   forall s rest more,
     inbound (self s) = (wire_int c ++ rest) :: more ->
     readInt s = (inr c, set_inbound (rest :: more) s)) /\
  (~ int32 c -> sendInt c st = (inl StructError, st)).
Proof.
  split; [|split; [|split]].
  - intros H. split; [apply (sends_sendByte c H)|].
    intros s rest more Hin. apply (reads_readByte c H s rest more Hin).
  - intros H. unfold sendByte, bind, Struct.pack_b.
    replace ((-128 <=? c) && (c <=? 127)) with false; [reflexivity|].
    symmetry. apply andb_false_iff. lia.
  - intros H. split; [apply (sends_sendInt c H)|]. split; [reflexivity|].
    apply (reads_readInt c H).
  - intros H. unfold sendInt, bind, Struct.pack_i.
    replace ((- 2 ^ 31 <=? c) && (c <? 2 ^ 31)) with false; [reflexivity|].
    symmetry. apply andb_false_iff. unfold int32 in H. lia.
Qed.

Lemma integer_codec_bounds_witness :
  sendInt (2 ^ 31 - 1) (fresh []) =
    (inr tt, add_outbound [xff; xff; xff; x7f] (fresh [])) /\
  sendInt (2 ^ 31) (fresh []) = (inl StructError, fresh []).
Proof.
  split.
  - destruct (integer_codec_bounds (2 ^ 31 - 1) (fresh []))
      as (_ & _ & H & _).
    apply H. unfold int32. lia.
  - destruct (integer_codec_bounds (2 ^ 31) (fresh [])) as (_ & _ & _ & H).
    apply H. unfold int32. lia.
Defined.

(** ** What the client can and cannot send *)

(** X11: a process taken from the table cannot be sent.  The names in the
    table are bytes objects, on which [encode] does not exist: for every
    entry of a table keyed by name, addProcess and removeProcess called
    with the stored process raise AttributeError, having sent the frame
    tag and nothing else. *)
Theorem table_entries_cannot_be_sent (st : State) (k : pyval) (p : Process) :
  keyed_by_name (rendezvous st) ->
  rendezvous st !! k = Some p ->
  addProcess p st = (inl AttributeError, add_outbound [x01] st) /\
  removeProcess p st = (inl AttributeError, add_outbound [x02] st).
Proof.
  intros Hk Hl. destruct (Hk k p Hl) as [_ (n & ver & eps & -> & _)].
  assert (Hn : proc_name (createProcess (PyBytes n) eps (PyBytes ver)) =
               PyBytes n) by reflexivity.
  unfold addProcess, removeProcess, send_process. split.
  - unfold bind at 1. rewrite (sends_sendByte 1 ltac:(lia) st).
    unfold bind at 1. rewrite Hn. reflexivity.
  - unfold bind at 1. rewrite (sends_sendByte 2 ltac:(lia) st).
    rewrite Hn. reflexivity.
Qed.

Lemma decoded_camera1 : decoded_process (received_process camera1).
Proof.
  eexists _, _, _. split; [reflexivity|].
  constructor; [|constructor]. left. eexists _, _, _.
  split; [reflexivity|]. constructor; [|constructor].
  eexists _, _. reflexivity.
Qed.

Lemma keyed_by_name_camera1 :
  keyed_by_name ({[ bytes "camera1" := received_process camera1 ]}).
Proof.
  intros k p H. apply lookup_singleton_Some in H as [<- <-].
  split; [reflexivity|]. exact decoded_camera1.
Qed.

Lemma table_entries_cannot_be_sent_witness :
  removeProcess (received_process camera1) (knows_camera1 []) =
    (inl AttributeError, add_outbound [x02] (knows_camera1 [])).
Proof.
  apply (table_entries_cannot_be_sent (knows_camera1 []) (bytes "camera1")
           (received_process camera1)).
  - exact keyed_by_name_camera1.
  - apply lookup_singleton_eq.
Defined.

Lemma only_sends_send_process (p : Process) : only_sends (send_process p).
Proof. unfold send_process. repeat out_step. Qed.

(** X12: neither addProcess nor removeProcess can fail cleanly: whatever
    the process and whether the call returns or raises, the frame tag (1,
    respectively 2) has been sent, followed by whatever was written before
    the exception. *)
Theorem frame_tag_is_always_sent (p : Process) (st : State) :
  (exists data, snd (addProcess p st) = add_outbound (x01 :: data) st) /\
  (exists data, snd (removeProcess p st) = add_outbound (x02 :: data) st).
Proof.
  split.
  - unfold addProcess, bind. rewrite (sends_sendByte 1 ltac:(lia) st).
    destruct (only_sends_send_process p (add_outbound [byte_of_Z 1] st))
      as [data H].
    exists data. rewrite H, add_outbound_twice. reflexivity.
  - unfold removeProcess, bind. rewrite (sends_sendByte 2 ltac:(lia) st).
    destruct (only_sends_sendString (proc_name p)
                (add_outbound [byte_of_Z 2] st)) as [data H].
    exists data. rewrite H, add_outbound_twice. reflexivity.
Qed.

Lemma addProcess_sends_frame (p : Process) :
  wf_process p -> sends (addProcess p) (frame_add p).
Proof.
  intros Hp. unfold frame_add.
  change (x01 :: wire_process p) with ([byte_of_Z 1] ++ wire_process p).
  apply sends_seq; [apply sends_sendByte; lia|].
  apply sends_send_process. exact Hp.
Qed.

Lemma add_outbound_inj (d1 d2 : list byte) (st : State) :
  add_outbound d1 st = add_outbound d2 st -> d1 = d2.
Proof.
  intros H. apply (f_equal (fun s => outbound (self s))) in H. simpl in H.
  exact (app_inv_head _ _ _ H).
Qed.

(** X13: what addProcess sends can be read in one way only: if the bytes
    it sends for two well-formed processes, each followed by further
    bytes, are the same byte sequence, then the two processes decode to
    the same record, the two frames are the same and the bytes that follow
    are the same.  Frames can therefore be written one after the other
    without separators. *)
Theorem process_encoding_is_unambiguous (p1 p2 : Process) (st1 st2 : State)
    (d1 d2 r1 r2 : list byte) :
  wf_process p1 -> wf_process p2 ->
  addProcess p1 st1 = (inr tt, add_outbound d1 st1) ->
  addProcess p2 st2 = (inr tt, add_outbound d2 st2) ->
  d1 ++ r1 = d2 ++ r2 ->
  received_process p1 = received_process p2 /\ d1 = d2 /\ r1 = r2.
Proof.
  intros H1 H2 S1 S2 Heq.
  rewrite (addProcess_sends_frame p1 H1 st1) in S1.
  rewrite (addProcess_sends_frame p2 H2 st2) in S2.
  apply (f_equal snd) in S1, S2. cbn [snd] in S1, S2.
  apply add_outbound_inj in S1, S2. subst d1 d2.
  assert (Hw : wire_process p1 ++ r1 = wire_process p2 ++ r2)
    by exact (f_equal (drop 1) Heq).
  pose proof (reads_readProcess p1 H1 (fresh [wire_process p1 ++ r1]) r1 []
                eq_refl) as E1.
  pose proof (reads_readProcess p2 H2 (fresh [wire_process p1 ++ r1]) r2 []
                ltac:(rewrite Hw; reflexivity)) as E2.
  rewrite E1 in E2.
  assert (Hp : received_process p1 = received_process p2).
  { exact (f_equal (fun x => match fst x with
                             | inr q => q
                             | inl _ => received_process p1
                             end) E2). }
  assert (Hr : r1 = r2).
  { exact (f_equal (fun x => match inbound (self (snd x)) with
                             | r :: _ => r
                             | [] => r1
                             end) E2). }
  split; [exact Hp|]. split; [|exact Hr].
  subst r2. exact (app_inv_tail _ _ _ Heq).
Qed.

Lemma process_encoding_is_unambiguous_witness :
  received_process camera1 = received_process camera1 /\
  frame_add camera1 = frame_add camera1 /\ [x00] = [x00].
Proof.
  apply (process_encoding_is_unambiguous camera1 camera1 (fresh []) (fresh [])
           (frame_add camera1) (frame_add camera1) [x00] [x00]
           wf_camera1 wf_camera1).
  - vm_compute. reflexivity.
  - vm_compute. reflexivity.
  - reflexivity.
Defined.

(** ** The client's own frames coming back *)

Lemma readProcessUpdate_remove (n : list byte) (q : Process) (st : State)
    rest more :
  (length n <= 127)%nat ->
  inbound (self st) = (x02 :: wire_string n ++ rest) :: more ->
  rendezvous st !! PyBytes n = Some q ->
  readProcessUpdate st =
    (inr true, set_inbound (rest :: more) (removed (PyBytes n) q st)).
Proof.
  intros Hlen Hin Hq. unfold readProcessUpdate. unfold bind at 1.
  rewrite (readByte_head st x02 (wire_string n ++ rest) more Hin).
  change (Struct.signed 8 (Z_of_byte x02)) with 2. cbn [Z.eqb Pos.eqb].
  unfold bind at 1.
  rewrite (reads_readString n Hlen
             (set_inbound ((wire_string n ++ rest) :: more) st) rest more
             eq_refl).
  rewrite set_inbound_twice, <- removed_set_inbound.
  unfold bind, rendezvous_pop, invoke, removed. simpl. rewrite Hq. simpl.
  destruct (onProcessRemoved (self st)); reflexivity.
Qed.

(** X14: the frames the client writes are frames the listener reads.  For
    a well-formed process, addProcess sends exactly an add-process frame
    and removeProcess exactly a remove-process frame; a listener that
    receives the two, and whose table has no entry of that name, first
    stores the decoded process under its name and then removes it again:
    its table ends as it began, the two callbacks (those registered) have
    been handed the same decoded record, and the bytes after the two
    frames are left on the socket. *)
Theorem own_frames_echo (p : Process) (st listener : State) rest more :
  wf_process p ->
  inbound (self listener) = (frame_add p ++ frame_remove p ++ rest) :: more ->
  rendezvous listener !! received_string (proc_name p) = None ->
  addProcess p st = (inr tt, add_outbound (frame_add p) st) /\
  removeProcess p st = (inr tt, add_outbound (frame_remove p) st) /\
  exists mid final,
    readProcessUpdate listener = (inr true, mid) /\
    rendezvous mid !! received_string (proc_name p) =
      Some (received_process p) /\
    readProcessUpdate mid = (inr true, final) /\
    rendezvous final = rendezvous listener /\
    delivered (self final) =
      delivered (self listener) ++
      (if onProcessAdded (self listener)
       then [ProcessAdded (received_process p)] else []) ++
      (if onProcessRemoved (self listener)
       then [ProcessRemoved (received_process p)] else []) /\
    inbound (self final) = rest :: more.
Proof.
  intros Hp Hin Hnone.
  assert (Hshort : short (proc_name p)) by exact (proj1 Hp).
  split; [|split].
  - apply (addProcess_sends_frame p Hp).
  - unfold frame_remove, removeProcess.
    change (x02 :: ?l) with ([byte_of_Z 2] ++ l).
    apply sends_seq; [apply sends_sendByte; lia|].
    apply sends_sendString. exact Hshort.
  - destruct Hshort as (e & He & Hlen).
    assert (Ht : text (proc_name p) = e) by (unfold text; rewrite He; reflexivity).
    pose proof (readProcessUpdate_add p listener _ more Hp Hin) as Ha.
    set (mid := set_inbound ((frame_remove p ++ rest) :: more)
                  (added (received_process p) listener)) in *.
    assert (Hmid : rendezvous mid !! PyBytes e = Some (received_process p)).
    { unfold mid. cbn [set_inbound rendezvous]. rewrite rendezvous_added.
      cbn [received_process createProcess proc_name]. unfold received_string.
      rewrite Ht. apply lookup_insert_eq. }
    assert (Hmin : inbound (self mid) = (x02 :: wire_string e ++ rest) :: more).
    { unfold mid, frame_remove. rewrite Ht. reflexivity. }
    pose proof (readProcessUpdate_remove e (received_process p) mid rest more
                  Hlen Hmin Hmid) as Hr.
    exists mid, (set_inbound (rest :: more)
                   (removed (PyBytes e) (received_process p) mid)).
    split; [exact Ha|]. split.
    { unfold received_string. rewrite Ht. exact Hmid. }
    split; [exact Hr|].
    unfold received_string in Hnone. rewrite Ht in Hnone.
    split; [|split; [|reflexivity]].
    + cbn [set_inbound rendezvous]. rewrite rendezvous_removed.
      unfold mid. cbn [set_inbound rendezvous]. rewrite rendezvous_added.
      cbn [received_process createProcess proc_name]. unfold received_string.
      rewrite Ht. apply delete_insert_id. exact Hnone.
    + unfold removed, mid, added.
      destruct (onProcessAdded (self listener)); cbn;
        destruct (onProcessRemoved (self listener)); cbn;
        rewrite <- ?app_assoc, ?app_nil_r; reflexivity.
Qed.

Lemma own_frames_echo_witness :
  addProcess camera1 (fresh []) =
    (inr tt, add_outbound (frame_add camera1) (fresh [])) /\
  removeProcess camera1 (fresh []) =
    (inr tt, add_outbound (frame_remove camera1) (fresh [])).
Proof.
  destruct (own_frames_echo camera1 (fresh [])
              (fresh [frame_add camera1 ++ frame_remove camera1 ++ []]) [] []
              wf_camera1 eq_refl ltac:(apply lookup_empty))
    as (Ha & Hr & _).
  split; [exact Ha|exact Hr].
Defined.

(** ** The end of the connection *)

(** X15: when the peer has closed the connection and nothing is left to
    read, __readByte gets an empty buffer from recv and raises
    struct.error; __readProcessUpdates swallows it and returns: the
    listener ends silently, with the table, the callback log and the bytes
    sent as they were. *)
Theorem closed_connection_ends_listener (st : State) :
  stream st = [] ->
  exists st',
    readProcessUpdate st = (inl StructError, st') /\
    readProcessUpdates st = Some st' /\
    rendezvous st' = rendezvous st /\
    delivered (self st') = delivered (self st) /\
    outbound (self st') = outbound (self st).
Proof.
  intros Hs.
  assert (Hb : fst (readByte st) = inl StructError)
    by (rewrite readByte_stream, Hs; reflexivity).
  destruct (readProcessUpdate st) as [r st'] eqn:E. exists st'.
  assert (Hr : r = inl StructError).
  { revert E. unfold readProcessUpdate, bind.
    destruct (readByte st) as [[e|u] s1]; simpl in Hb; [|discriminate Hb].
    intros H. injection H as <- _. injection Hb as ->. reflexivity. }
  subst r. split; [reflexivity|].
  split; [exact (proj2 (listener_stops st st' StructError E))|].
  rewrite (readProcessUpdate_raises st st' StructError E).
  repeat split.
Qed.

Lemma closed_connection_ends_listener_witness :
  exists st',
    readProcessUpdates (knows_camera1 []) = Some st' /\
    rendezvous st' = rendezvous (knows_camera1 []).
Proof.
  destruct (closed_connection_ends_listener (knows_camera1 []) eq_refl)
    as (st' & _ & Hrun & Ht & _).
  exists st'. split; [exact Hrun|exact Ht].
Defined.

Lemma consumes_readProcessUpdate : consumes readProcessUpdate.
Proof. unfold readProcessUpdate. repeat consume_step. Qed.

Lemma loop_more_fuel (fuel : nat) (st st' : State) :
  readProcessUpdates_loop fuel st = Some st' ->
  readProcessUpdates_loop (S fuel) st = Some st'.
Proof.
  revert st. induction fuel as [|fuel IH]; intros st H; [discriminate H|].
  cbn [readProcessUpdates_loop] in *.
  destruct (readProcessUpdate st) as [[e|[|]] s1]; try exact H.
  apply IH. exact H.
Qed.

Lemma loop_fuel_le (f1 f2 : nat) (st st' : State) :
  (f1 <= f2)%nat ->
  readProcessUpdates_loop f1 st = Some st' ->
  readProcessUpdates_loop f2 st = Some st'.
Proof.
  intros Hle H. induction Hle as [|f2 _ IH]; [exact H|].
  apply loop_more_fuel. exact IH.
Qed.

(** X16: on a connection that the peer closes after finitely many bytes,
    the listener's loop always ends, after at most one turn per byte
    received and one more: each turn that continues has taken at least its
    tag byte off the socket and no turn puts bytes back.  The state it
    ends in does not depend on how many turns it is allowed beyond
    that. *)
Theorem listener_terminates (st : State) :
  exists st',
    readProcessUpdates st = Some st' /\
    (forall fuel, (pending st < fuel)%nat ->
       readProcessUpdates_loop fuel st = Some st') /\
    (pending st' <= pending st)%nat.
Proof.
  destruct (readProcessUpdates_loop_ends (S (pending st)) st ltac:(lia))
    as [st' H].
  exists st'. split; [exact H|]. split.
  - intros fuel Hf. apply (loop_fuel_le (S (pending st)) fuel); [lia|exact H].
  - revert H.
    apply (listener_induction
             (fun a b => (pending b <= pending a)%nat)); [lia | lia |].
    intros s r s' E. pose proof (consumes_readProcessUpdate s) as Hc.
    rewrite E in Hc. exact Hc.
Qed.

(** ** Frames arriving one delivery at a time *)

Lemma filter_nonempty_twice (cs : list (list byte)) :
  List.filter nonempty (List.filter nonempty cs) = List.filter nonempty cs.
Proof.
  induction cs as [|c cs IH]; [reflexivity|].
  destruct c; simpl; [exact IH|]. rewrite IH. reflexivity.
Qed.

Lemma take_delivery_filter (k : nat) (cs : list (list byte)) :
  fst (take_delivery k cs) =
    fst (take_delivery k (List.filter nonempty cs)) /\
  List.filter nonempty (snd (take_delivery k cs)) =
    List.filter nonempty (snd (take_delivery k (List.filter nonempty cs))).
Proof.
  induction cs as [|c cs IH]; [split; reflexivity|].
  destruct c as [|b c]; [exact IH|].
  cbn [List.filter nonempty take_delivery fst snd]. split; [reflexivity|].
  destruct (drop k (b :: c)); cbn [List.filter nonempty];
    rewrite filter_nonempty_twice; reflexivity.
Qed.

Lemma same_refl (st : State) : same_but_empty_deliveries st st.
Proof.
  exists st, (inbound (self st)), (inbound (self st)).
  rewrite set_inbound_same. repeat split.
Qed.

Lemma respects_ret {A} (a : A) : respects (ret a).
Proof. intros st st' H. split; [reflexivity|exact H]. Qed.

Lemma respects_raise {A} (e : exn) : respects (@raise A e).
Proof. intros st st' H. split; [reflexivity|exact H]. Qed.

Lemma respects_lift {A} (r : res A) : respects (lift r).
Proof. destruct r; [apply respects_raise | apply respects_ret]. Qed.

Lemma respects_bind {A B} (m : M A) (k : A -> M B) :
  respects m -> (forall a, respects (k a)) -> respects (bind m k).
Proof.
  intros Hm Hk st st' H. unfold bind. destruct (Hm st st' H) as [Hv Hs].
  destruct (m st) as [[e|a] s1], (m st') as [[e'|a'] s1']; simpl in *;
    try discriminate Hv.
  - injection Hv as <-. split; [reflexivity|exact Hs].
  - injection Hv as <-. exact (Hk a s1 s1' Hs).
Qed.

Lemma respects_recv (n : Z) : respects (socket_recv n).
Proof.
  intros st st' (base & c & c' & -> & -> & Hf). unfold socket_recv.
  destruct (n <? 0); [split; [reflexivity|exists base, c, c'; auto]|].
  destruct (n =? 0); [split; [reflexivity|exists base, c, c'; auto]|].
  cbn [set_inbound self inbound].
  destruct (take_delivery_filter (Z.to_nat n) c) as [H1 H2].
  destruct (take_delivery_filter (Z.to_nat n) c') as [H1' H2'].
  rewrite <- Hf in H1', H2'.
  destruct (take_delivery (Z.to_nat n) c) as [d cs].
  destruct (take_delivery (Z.to_nat n) c') as [d' cs']. simpl in *.
  split; [rewrite H1, H1'; reflexivity|].
  exists base, cs, cs'. repeat split. rewrite H2, H2'. reflexivity.
Qed.

Lemma respects_collect {A} (n : nat) (body : M A) :
  respects body -> respects (collect n body).
Proof.
  intros Hb. induction n as [|n IH]; simpl; [apply respects_ret|].
  apply respects_bind; [exact Hb|]. intros x.
  apply respects_bind; [exact IH|]. intros xs. apply respects_ret.
Qed.

Lemma respects_setitem key p : respects (rendezvous_setitem key p).
Proof.
  intros st st' (base & c & c' & -> & -> & Hf). split; [reflexivity|].
  exists (set_rendezvous (<[key := p]> (rendezvous base)) base), c, c'.
  repeat split. exact Hf.
Qed.

Lemma respects_pop key : respects (rendezvous_pop key).
Proof.
  intros st st' (base & c & c' & -> & -> & Hf). unfold rendezvous_pop.
  cbn [set_inbound rendezvous].
  destruct (rendezvous base !! key); (split; [reflexivity|]).
  - exists (set_rendezvous (delete key (rendezvous base)) base), c, c'.
    repeat split. exact Hf.
  - exists base, c, c'. repeat split. exact Hf.
Qed.

Lemma respects_invoke_added ev : respects (invoke onProcessAdded ev).
Proof.
  intros st st' (base & c & c' & -> & -> & Hf). unfold invoke.
  cbn [set_inbound self onProcessAdded].
  destruct (onProcessAdded (self base)); (split; [reflexivity|]).
  - exists (add_delivered ev base), c, c'. repeat split. exact Hf.
  - exists base, c, c'. repeat split. exact Hf.
Qed.

Lemma respects_invoke_removed ev : respects (invoke onProcessRemoved ev).
Proof.
  intros st st' (base & c & c' & -> & -> & Hf). unfold invoke.
  cbn [set_inbound self onProcessRemoved].
  destruct (onProcessRemoved (self base)); (split; [reflexivity|]).
  - exists (add_delivered ev base), c, c'. repeat split. exact Hf.
  - exists base, c, c'. repeat split. exact Hf.
Qed.

#[local] Hint Resolve respects_ret respects_raise respects_lift respects_recv
  respects_setitem respects_pop respects_invoke_added
  respects_invoke_removed : io.

Ltac respect_step :=
  first [ solve [auto with io]
        | apply respects_collect
        | apply respects_bind; [|intros ?]
        | match goal with
          | |- respects (if ?c then _ else _) => destruct c
          end ].

Lemma respects_readByte : respects readByte.
Proof. unfold readByte. repeat respect_step. Qed.

Lemma respects_readInt : respects readInt.
Proof. unfold readInt. repeat respect_step. Qed.

#[local] Hint Resolve respects_readByte respects_readInt : io.

Lemma respects_readString : respects readString.
Proof. unfold readString. repeat respect_step. Qed.

#[local] Hint Resolve respects_readString : io.

Lemma respects_readStreams : respects readStreams.
Proof.
  unfold readStreams. apply respects_bind; [auto with io|]. intros count.
  apply respects_collect. repeat respect_step.
Qed.

#[local] Hint Resolve respects_readStreams : io.

Lemma respects_readEndpoint : respects readEndpoint.
Proof. unfold readEndpoint. repeat respect_step. Qed.

#[local] Hint Resolve respects_readEndpoint : io.

Lemma respects_readProcess : respects readProcess.
Proof. unfold readProcess. repeat respect_step. Qed.

#[local] Hint Resolve respects_readProcess : io.

Lemma respects_readProcessUpdate : respects readProcessUpdate.
Proof. unfold readProcessUpdate. repeat respect_step. Qed.

Lemma same_fields (a b : State) :
  same_but_empty_deliveries a b ->
  rendezvous a = rendezvous b /\
  delivered (self a) = delivered (self b) /\
  onProcessAdded (self a) = onProcessAdded (self b) /\
  List.filter nonempty (inbound (self a)) =
    List.filter nonempty (inbound (self b)).
Proof. intros (base & c & c' & -> & -> & Hf). repeat split. exact Hf. Qed.

Lemma filter_nonempty_frames (ps : list Process) :
  List.filter nonempty (map frame_add ps ++ [[x00]]) =
  map frame_add ps ++ [[x00]].
Proof.
  induction ps as [|p ps IH]; [reflexivity|].
  cbn [map app List.filter frame_add nonempty]. rewrite IH. reflexivity.
Qed.

Lemma loop_frame_deliveries (ps : list Process) (fuel : nat) (st : State) :
  (length ps < fuel)%nat ->
  Forall wf_process ps ->
  List.filter nonempty (inbound (self st)) = map frame_add ps ++ [[x00]] ->
  exists st',
    readProcessUpdates_loop fuel st = Some st' /\
    rendezvous st' =
      foldl (fun t p => <[proc_name p := p]> t) (rendezvous st)
            (map received_process ps) /\
    delivered (self st') =
      delivered (self st) ++
      (if onProcessAdded (self st)
       then map ProcessAdded (map received_process ps) else []).
Proof.
  revert fuel st. induction ps as [|p ps IH]; intros fuel st Hf Hwf Hin;
    (destruct fuel as [|fuel]; [simpl in Hf; lia|]).
  - set (st0 := set_inbound [[x00]] st).
    assert (Hsame : same_but_empty_deliveries st st0).
    { exists st, (inbound (self st)), [[x00]].
      rewrite set_inbound_same. repeat split. exact Hin. }
    destruct (respects_readProcessUpdate st st0 Hsame) as [Hv Hs].
    rewrite (readProcessUpdate_disconnect st0 [] [] eq_refl) in Hv, Hs.
    cbn [fst snd] in Hv, Hs.
    destruct (same_fields _ _ Hs) as (Ht & Hd & _ & _).
    cbn [readProcessUpdates_loop].
    destruct (readProcessUpdate st) as [r s1]. cbn [fst snd] in *. subst r.
    exists s1. split; [reflexivity|]. split; [exact Ht|].
    rewrite Hd. simpl.
    destruct (onProcessAdded (self st)); rewrite app_nil_r; reflexivity.
  - inversion Hwf as [|p' ps' Hp Hps]; subst.
    set (tail := map frame_add ps ++ [[x00]]) in *.
    set (st0 := set_inbound ((frame_add p ++ []) :: tail) st).
    assert (Hsame : same_but_empty_deliveries st st0).
    { exists st, (inbound (self st)), ((frame_add p ++ []) :: tail).
      rewrite set_inbound_same. repeat split. rewrite Hin, app_nil_r.
      cbn [map app List.filter frame_add nonempty]. fold (frame_add p).
      unfold tail. rewrite filter_nonempty_frames. reflexivity. }
    destruct (respects_readProcessUpdate st st0 Hsame) as [Hv Hs].
    rewrite (readProcessUpdate_add p st0 [] tail Hp eq_refl) in Hv, Hs.
    cbn [fst snd] in Hv, Hs.
    destruct (same_fields _ _ Hs) as (Ht & Hd & Ha & Hi).
    cbn [readProcessUpdates_loop].
    destruct (readProcessUpdate st) as [r s1]. cbn [fst snd] in *. subst r.
    destruct (IH fuel s1 ltac:(simpl in Hf; lia) Hps) as (st' & Hrun & Ht' & Hd').
    { rewrite Hi. cbn [set_inbound self inbound List.filter nonempty].
      unfold tail. apply filter_nonempty_frames. }
    exists st'. split; [exact Hrun|].
    rewrite Ht', Hd', Ht, Hd, Ha. cbn [map foldl].
    unfold st0. rewrite added_set_inbound. cbn [set_inbound rendezvous self
      delivered onProcessAdded]. rewrite rendezvous_added, added_flag.
    split; [reflexivity|]. unfold added.
    destruct (onProcessAdded (self st)); simpl; [|reflexivity].
    rewrite <- app_assoc. reflexivity.
Qed.

(** X17: frames may arrive one delivery at a time.  When every add-process
    frame (of a well-formed process) arrives as a delivery of its own,
    followed by a delivery holding the disconnect tag, the listener
    processes them all and stops, exactly as when they arrive in one
    delivery: the table is the initial table with the decoded records
    inserted in order, and onProcessAdded (if registered) has received each
    of them in order.  (What a read cannot survive is a delivery that ends
    inside the bytes it asked for.) *)
Theorem listener_takes_frames_one_delivery_each (ps : list Process)
    (st : State) :
  Forall wf_process ps ->
  inbound (self st) = map frame_add ps ++ [[x00]] ->
  exists st',
    readProcessUpdates st = Some st' /\
    rendezvous st' =
      foldl (fun t p => <[proc_name p := p]> t) (rendezvous st)
            (map received_process ps) /\
    delivered (self st') =
      delivered (self st) ++
      (if onProcessAdded (self st)
       then map ProcessAdded (map received_process ps) else []).
Proof.
  intros Hwf Hin. unfold readProcessUpdates.
  apply loop_frame_deliveries; [|exact Hwf|].
  - unfold pending. rewrite Hin, concat_app, length_app.
    pose proof (frames_length ps). simpl. lia.
  - rewrite Hin. apply filter_nonempty_frames.
Qed.

Lemma listener_takes_frames_one_delivery_each_witness :
  exists st',
    readProcessUpdates (fresh [frame_add camera1; frame_add camera1; [x00]])
      = Some st' /\
    rendezvous st' =
      <[bytes "camera1" := received_process camera1]>
        (<[bytes "camera1" := received_process camera1]> ∅).
Proof.
  destruct (listener_takes_frames_one_delivery_each [camera1; camera1]
              (fresh [frame_add camera1; frame_add camera1; [x00]])
              ltac:(constructor; [exact wf_camera1|];
                    constructor; [exact wf_camera1|constructor])
              eq_refl) as (st' & Hrun & Ht & _).
  exists st'. split; [exact Hrun|exact Ht].
Defined.
